(** * Graph tensor algebra utilities

    A shallow embedding of [Graph_TimeSeries_Forecasting/spektral_utilities.py]:
    the mode detection and the dot-product family written against the tensor
    engine, and the degree / normalisation / filter family written against
    the array library.

    The engines themselves are not part of the module.  Their scalar
    arithmetic is kept abstract in the class [Scalar]; every structural
    statement below holds for any instance, and the statements that depend on
    arithmetic facts say which facts they use. *)

From Stdlib Require Import List Arith ZArith Lia Bool Floats Reals Lra.
From stdpp Require Import base list.
Import ListNotations.
Open Scope nat_scope.

(** ** Scalars of the numeric engine *)

(** The operations the module asks of its scalars: the two constants used by
    [eye] and [diag], addition and multiplication (matrix products, row
    sums), elementwise power ([np.power]), the infinity test ([np.isinf]),
    the two exponent literals of [normalized_adjacency], the conversion
    performed when a value is stored into an array of integer element type,
    and the floating value of an integer exponent. *)
Class Scalar (F : Type) := {
  fzero : F;
  fone : F;
  fadd : F -> F -> F;
  fmul : F -> F -> F;
  fpower : F -> F -> F;
  fisinf : F -> bool;
  fneg_half : F;
  fneg_one : F;
  fto_int : F -> F;
  fof_int : Z -> F
}.

(** ** Mode codes *)

Definition SINGLE : Z := 1.
Definition MIXED : Z := 2.
Definition iMIXED : Z := 3.
Definition BATCH : Z := 4.
Definition UNKNOWN : Z := -1.

(** Errors raised by the engines are modelled by [None]. *)
Notation "'do' x <- e 'in' k" :=
  (match e with Some x => k | None => None end)
  (at level 10, x name, e at level 100, k at level 200, only parsing).

(** ** Row-major index arithmetic *)

Definition numel (sh : list nat) : nat := fold_right Nat.mul 1 sh.

Fixpoint unravel (sh : list nat) (idx : nat) : list nat :=
  match sh with
  | [] => []
  | _ :: rest => idx / numel rest :: unravel rest (idx mod numel rest)
  end.

Fixpoint ravel (sh : list nat) (ix : list nat) : nat :=
  match sh, ix with
  | _ :: rest, i :: ix' => i * numel rest + ravel rest ix'
  | _, _ => 0
  end.

Fixpoint index_of (e : nat) (perm : list nat) : nat :=
  match perm with
  | [] => 0
  | p :: ps => if p =? e then 0 else S (index_of e ps)
  end.

Definition is_perm (perm : list nat) (rank : nat) : bool :=
  (length perm =? rank) &&
  forallb (fun e => existsb (Nat.eqb e) perm) (seq 0 rank).

(** The target of a reshape: at most one placeholder [-1], inferred from the
    element count; an inference against an empty product is rejected. *)
Definition resolve_shape (n : nat) (shape : list Z) : option (list nat) :=
  let known := numel (map Z.to_nat (List.filter (fun d => negb (d =? -1)%Z) shape)) in
  if existsb (fun d => (d <? -1)%Z) shape then None
  else match length (List.filter (fun d => (d =? -1)%Z) shape) with
       | 0 => if known =? n then Some (map Z.to_nat shape) else None
       | 1 => if (known =? 0) || negb (n mod known =? 0) then None
              else Some (map (fun d => if (d =? -1)%Z then n / known
                                       else Z.to_nat d) shape)
       | _ => None
       end.

Section Tensors.
Context {F : Type} `{Scalar F}.

(** ** Tensors of the tensor engine

    A tensor is its sparsity flag, its static shape and its entries in
    row-major order. *)
Record tensor := mkTensor {
  is_sparse : bool;
  int_shape : list nat;
  values : list F
}.

Definition ndim (a : tensor) : nat := length (int_shape a).

Definition wf_tensor (a : tensor) : Prop :=
  length (values a) = numel (int_shape a).

Definition get (a : tensor) (ix : list nat) : F :=
  nth (ravel (int_shape a) ix) (values a) fzero.

Definition permute_axes (sp : bool) (a : tensor) (perm : list nat)
  : option tensor :=
  let sh := int_shape a in
  if is_perm perm (length sh) then
    let osh := map (fun p => nth p sh 0) perm in
    Some {| is_sparse := sp;
            int_shape := osh;
            values :=
              map (fun o =>
                     nth (ravel sh
                            (map (fun e => nth (index_of e perm) (unravel osh o) 0)
                               (seq 0 (length sh))))
                       (values a) fzero)
                (seq 0 (numel osh)) |}
  else None.

Definition tf_transpose := permute_axes false.
Definition tf_sparse_transpose := permute_axes true.

Definition transpose (a : tensor) (perm : option (list nat)) : option tensor :=
  let transpose_op := if is_sparse a then tf_sparse_transpose else tf_transpose in
  let perm := match perm with None => [1; 0] | Some p => p end in
  transpose_op a perm.

Definition with_shape (sp : bool) (a : tensor) (shape : option (list Z))
  : option tensor :=
  match shape with
  | None => None
  | Some shape =>
      do sh <- resolve_shape (numel (int_shape a)) shape in
      Some {| is_sparse := sp; int_shape := sh; values := values a |}
  end.

Definition tf_reshape := with_shape false.
Definition tf_sparse_reshape := with_shape true.

Definition reshape (a : tensor) (shape : option (list Z)) : option tensor :=
  let reshape_op := if is_sparse a then tf_sparse_reshape else tf_reshape in
  reshape_op a shape.

Definition autodetect_mode (a b : tensor) : Z :=
  let a_dim := ndim a in
  let b_dim := ndim b in
  if b_dim =? 2 then
    if a_dim =? 2 then SINGLE
    else if a_dim =? 3 then iMIXED
    else UNKNOWN
  else if b_dim =? 3 then
    if a_dim =? 2 then MIXED
    else if a_dim =? 3 then BATCH
    else UNKNOWN
  else UNKNOWN.

(** *** The multiply primitive

    An operand of the sparse multiply is either a plain tensor or a CSR
    sparse matrix built from a sparse tensor. *)
Inductive operand :=
| PlainTensor (t : tensor)
| CSRSparseMatrix (t : tensor).

Definition op_tensor (o : operand) : tensor :=
  match o with PlainTensor t => t | CSRSparseMatrix t => t end.

Definition is_csr (o : operand) : bool :=
  match o with PlainTensor _ => false | CSRSparseMatrix _ => true end.

Definition dotsum (inner : nat) (f : nat -> F) : F :=
  fold_left (fun acc j => fadd acc (f j)) (seq 0 inner) fzero.

(** Entry [(i, j)] of a stored matrix with [cols] columns starting at [base],
    read transposed when [tr] is set. *)
Definition entry (tr : bool) (cols base : nat) (v : list F) (i j : nat) : F :=
  nth (base + (if tr then j * cols + i else i * cols + j)) v fzero.

Definition logical_dims (tr : bool) (r c : nat) : nat * nat :=
  if tr then (c, r) else (r, c).

Definition matmul_block (ta tb : bool) (ca cb base_a base_b : nat)
    (va vb : list F) (rows inner cols : nat) : list F :=
  flat_map
    (fun i =>
       map (fun k =>
              dotsum inner
                (fun j => fmul (entry ta ca base_a va i j)
                               (entry tb cb base_b vb j k)))
         (seq 0 cols))
    (seq 0 rows).

Definition wrap_product (a b : operand) (sh : list nat) (v : list F) : operand :=
  if is_csr a && is_csr b
  then CSRSparseMatrix {| is_sparse := true; int_shape := sh; values := v |}
  else PlainTensor {| is_sparse := false; int_shape := sh; values := v |}.

(** Product along the innermost two axes of operands of the same rank, 2 or
    3; the result is a CSR matrix exactly when both operands are. *)
Definition tfsp_matmul (a b : operand) (transpose_a transpose_b : bool)
  : option operand :=
  let va := values (op_tensor a) in
  let vb := values (op_tensor b) in
  match int_shape (op_tensor a), int_shape (op_tensor b) with
  | [n; m], [m'; p] =>
      let '(ra, ia) := logical_dims transpose_a n m in
      let '(ib, cb) := logical_dims transpose_b m' p in
      if ia =? ib then
        Some (wrap_product a b [ra; cb]
                (matmul_block transpose_a transpose_b m p 0 0 va vb ra ia cb))
      else None
  | [ba; n; m], [bb; m'; p] =>
      let '(ra, ia) := logical_dims transpose_a n m in
      let '(ib, cb) := logical_dims transpose_b m' p in
      if (ba =? bb) && (ia =? ib) then
        Some (wrap_product a b [ba; ra; cb]
                (flat_map
                   (fun t => matmul_block transpose_a transpose_b m p
                               (t * (n * m)) (t * (m' * p)) va vb ra ia cb)
                   (seq 0 ba)))
      else None
  | _, _ => None
  end.

(** The operand [dot] passes to the multiply for a tensor [a]. *)
Definition as_operand (a : tensor) : operand :=
  if is_sparse a then CSRSparseMatrix a else PlainTensor a.

Definition to_sparse_tensor (t : tensor) : tensor :=
  {| is_sparse := true; int_shape := int_shape t; values := values t |}.

Definition dot (a b : tensor) (transpose_a transpose_b : bool) : option tensor :=
  let a_is_sparse_tensor := is_sparse a in
  let b_is_sparse_tensor := is_sparse b in
  let a' := if a_is_sparse_tensor then CSRSparseMatrix a else PlainTensor a in
  let b' := if b_is_sparse_tensor then CSRSparseMatrix b else PlainTensor b in
  do out <- tfsp_matmul a' b' transpose_a transpose_b in
  match out with
  | CSRSparseMatrix t => Some (to_sparse_tensor t)
  | PlainTensor t => Some t
  end.

Definition mixed_mode_dot (a b : tensor) : option tensor :=
  match int_shape b with
  | [s_0_; s_1_; s_2_] =>
      do B_T <- transpose b (Some [1; 2; 0]) in
      do B_T <- reshape B_T (Some [Z.of_nat s_1_; (-1)%Z]) in
      do output <- dot a B_T false false in
      do output <- reshape output (Some [Z.of_nat s_1_; Z.of_nat s_2_; (-1)%Z]) in
      transpose output (Some [2; 0; 1])
  | _ => None
  end.

Definition filter_dot (fltr features : tensor) : option tensor :=
  let mode := autodetect_mode fltr features in
  if (mode =? SINGLE)%Z || (mode =? BATCH)%Z then
    dot fltr features false false
  else
    mixed_mode_dot fltr features.

End Tensors.

Arguments tensor F : clear implicits.
Arguments operand F : clear implicits.

(** ** Arrays of the array library *)

(** Element types of an array: values stored into an [Int64] array are
    converted with [fto_int]. *)
Inductive dtype := Int64 | Float64.

Definition result_type (d1 d2 : dtype) : dtype :=
  match d1, d2 with
  | Int64, Int64 => Int64
  | _, _ => Float64
  end.

(** Broadcasting of one axis: equal extents, or one of them is 1. *)
Definition bdim (x y : nat) : option nat :=
  if x =? y then Some x
  else if x =? 1 then Some y
  else if y =? 1 then Some x
  else None.

Definition bidx (d i : nat) : nat := if d =? 1 then 0 else i.

Section Arrays.
Context {F : Type} `{Scalar F}.

(** A rank-2 array or sparse matrix: storage class, element type, number of
    columns and the rows. *)
Record matrix := mkMatrix {
  m_sparse : bool;
  m_dtype : dtype;
  m_cols : nat;
  m_rows : list (list F)
}.

Definition m_nrows (A : matrix) : nat := length (m_rows A).

Definition wf_matrix (A : matrix) : Prop :=
  Forall (fun r => length r = m_cols A) (m_rows A).

Definition square (n : nat) (A : matrix) : Prop :=
  m_nrows A = n /\ m_cols A = n /\ wf_matrix A.

Definition at_ (rows : list (list F)) (i j : nat) : F :=
  nth j (nth i rows []) fzero.

Definition build (n m : nat) (f : nat -> nat -> F) : list (list F) :=
  map (fun i => map (fun j => f i j) (seq 0 m)) (seq 0 n).

(** A rank-2 array or sparse matrix, or a dense rank-3 array of shape
    [(length slices, n, m)]; sparse matrices are always rank 2. *)
Inductive ndarray :=
| Rank2 (A : matrix)
| Rank3 (d : dtype) (n m : nat) (slices : list (list (list F))).

Definition issparse (A : ndarray) : bool :=
  match A with Rank2 A => m_sparse A | Rank3 _ _ _ _ => false end.

Definition ndarray_ndim (A : ndarray) : nat :=
  match A with Rank2 _ => 2 | Rank3 _ _ _ _ => 3 end.

Definition ndarray_dtype (A : ndarray) : dtype :=
  match A with Rank2 A => m_dtype A | Rank3 d _ _ _ => d end.

(** [A.shape[-1]] and [A.shape[0]]. *)
Definition shape_last (A : ndarray) : nat :=
  match A with Rank2 A => m_cols A | Rank3 _ _ m _ => m end.

Definition shape_first (A : ndarray) : nat :=
  match A with Rank2 A => m_nrows A | Rank3 _ _ _ slices => length slices end.

Definition eye (sp : bool) (n : nat) (d : dtype) : matrix :=
  {| m_sparse := sp; m_dtype := d; m_cols := n;
     m_rows := build n n (fun i j => if i =? j then fone else fzero) |}.

Definition np_eye := eye false.
Definition sp_eye := eye true.

(** The diagonal matrix of a vector [v] of element type [d]. *)
Definition diag (sp : bool) (d : dtype) (v : list F) : matrix :=
  {| m_sparse := sp; m_dtype := d; m_cols := length v;
     m_rows := build (length v) (length v)
                 (fun i j => if i =? j then nth i v fzero else fzero) |}.

Definition np_diag := diag false.
Definition sp_diags := diag true.

(** [X + Y]: dense arrays broadcast, sparse matrices need equal shapes. *)
Definition matrix_add (X Y : matrix) : option matrix :=
  let r1 := m_nrows X in let c1 := m_cols X in
  let r2 := m_nrows Y in let c2 := m_cols Y in
  let dims :=
    if m_sparse X || m_sparse Y
    then (if (r1 =? r2) && (c1 =? c2) then Some (r1, c1) else None)
    else (do r <- bdim r1 r2 in do c <- bdim c1 c2 in Some (r, c)) in
  do rc <- dims in
  Some {| m_sparse := m_sparse X && m_sparse Y;
          m_dtype := result_type (m_dtype X) (m_dtype Y);
          m_cols := snd rc;
          m_rows := build (fst rc) (snd rc)
                      (fun i j => fadd (at_ (m_rows X) (bidx r1 i) (bidx c1 j))
                                       (at_ (m_rows Y) (bidx r2 i) (bidx c2 j))) |}.

(** [X.dot(Y)]: the matrix product, defined when the inner extents agree. *)
Definition matrix_dot (X Y : matrix) : option matrix :=
  if m_cols X =? m_nrows Y then
    Some {| m_sparse := m_sparse X && m_sparse Y;
            m_dtype := result_type (m_dtype X) (m_dtype Y);
            m_cols := m_cols Y;
            m_rows := build (m_nrows X) (m_cols Y)
                        (fun i k => dotsum (m_cols X)
                                      (fun j => fmul (at_ (m_rows X) i j)
                                                     (at_ (m_rows Y) j k))) |}
  else None.

(** [A.sum(1)], one sum per row. *)
Definition sum1 (A : matrix) : list F :=
  map (fun r => fold_left fadd r fzero) (m_rows A).

(** The exponent [k] as the caller wrote it: a Python [int] or a [float]. *)
Inductive exponent :=
| IntExp (z : Z)
| FloatExp (k : F).

(** The element type of [np.power(x, k)] for [x] of element type [d]: an
    [int] exponent adapts to the array, a [float] one makes the result
    floating. *)
Definition power_type (d : dtype) (k : exponent) : dtype :=
  match k with
  | IntExp _ => d
  | FloatExp _ => Float64
  end.


(** The power of an integer to a non-negative integer, by repeated
    multiplication; integers are the scalars that denote them, so this is
    the engine's result as long as it fits the element type. *)
Definition int_power (x : F) (z : Z) : F := Z.iter z (fmul x) fone.

(** [np.power(x, k)] on a vector [x] of element type [d].  With a [float]
    exponent, or a floating [x], every entry goes through the floating
    power.  Integers to a negative integer power are refused: the engine
    raises at the first entry it meets. *)
Definition np_power (d : dtype) (x : list F) (k : exponent) : option (list F) :=
  match k, d with
  | FloatExp e, _ => Some (map (fun v => fpower v e) x)
  | IntExp z, Float64 => Some (map (fun v => fpower v (fof_int z)) x)
  | IntExp z, Int64 =>
      if (z <? 0)%Z
      then match x with [] => Some [] | _ :: _ => None end
      else Some (map (fun v => int_power v z) x)
  end.

(** [degrees[np.isinf(degrees)] = 0.], entry by entry. *)
Definition clamp (d : F) : F := if fisinf d then fzero else d.

(** [np.isinf] finds nothing in an array of integers. *)
Definition clamp_all (d : dtype) (degrees : list F) : list F :=
  match d with
  | Float64 => map clamp degrees
  | Int64 => degrees
  end.

Definition degree_power (A : matrix) (k : exponent) : option matrix :=
  let d := power_type (m_dtype A) k in
  do degrees <- np_power (m_dtype A) (sum1 A) k in
  let degrees := clamp_all d degrees in
  Some (if m_sparse A then sp_diags d degrees else np_diag d degrees).

(** What [degree_power] returns for a floating exponent [k]. *)
Definition degree_matrix (A : matrix) (k : F) : matrix :=
  diag (m_sparse A) Float64 (map clamp (map (fun d => fpower d k) (sum1 A))).

Definition normalized_adjacency (A : matrix) (symmetric : bool) : option matrix :=
  if symmetric then
    do normalized_D <- degree_power A (FloatExp fneg_half) in
    do t <- matrix_dot normalized_D A in
    matrix_dot t normalized_D
  else
    do normalized_D <- degree_power A (FloatExp fneg_one) in
    matrix_dot normalized_D A.

(** *** The store of array objects

    Names of the program are references into a store; an operation that
    raises leaves the store as it was at that point. *)
Definition loc := nat.
Abbreviation heap := (list ndarray).
Definition M (A : Type) : Type := heap -> option A * heap.

Definition ret {A} (x : A) : M A := fun h => (Some x, h).
Definition raise {A} : M A := fun h => (None, h).
Definition bind {A B} (m : M A) (k : A -> M B) : M B :=
  fun h => match m h with
           | (Some x, h') => k x h'
           | (None, h') => (None, h')
           end.
Definition lift {A} (o : option A) : M A :=
  match o with Some x => ret x | None => raise end.

Definition alloc (v : ndarray) : M loc := fun h => (Some (length h), h ++ [v]).
Definition load (l : loc) : M ndarray := fun h => (h !! l, h).
Definition store (l : loc) (v : ndarray) : M unit :=
  fun h => if l <? length h then (Some tt, <[l := v]> h) else (None, h).

End Arrays.

Arguments matrix F : clear implicits.
Arguments ndarray F : clear implicits.
Arguments exponent F : clear implicits.
Abbreviation heap F := (list (ndarray F)).
Arguments M F A : clear implicits.

Notation "'exec' x <- e 'in' k" := (bind e (fun x => k))
  (at level 10, x name, e at level 100, k at level 200, only parsing).

Section Filter.
Context {F : Type} `{Scalar F}.

Definition load_matrix (l : loc) : M F (matrix F) :=
  exec v <- load l in
  match v with Rank2 A => ret A | Rank3 _ _ _ _ => raise end.

(** [A.copy()] *)
Definition copy (A : loc) : M F loc :=
  exec v <- load A in alloc v.

(** [X + Y] on two rank-2 objects, a new object. *)
Definition add_ (X Y : loc) : M F loc :=
  exec x <- load_matrix X in
  exec y <- load_matrix Y in
  exec s <- lift (matrix_add x y) in
  alloc (Rank2 s).

(** The rank-2 array seen through [A[i]] for a rank-3 [A]. *)
Definition slice_matrix (d : dtype) (m : nat) (s : list (list F)) : matrix F :=
  {| m_sparse := false; m_dtype := d; m_cols := m; m_rows := s |}.

(** [A[i] + I]: the slice is read through the view. *)
Definition add_slice (A : loc) (i : nat) (I : loc) : M F loc :=
  exec a <- load A in
  match a with
  | Rank3 d n m slices =>
      exec s <- lift (slices !! i) in
      exec y <- load_matrix I in
      exec t <- lift (matrix_add (slice_matrix d m s) y) in
      alloc (Rank2 t)
  | Rank2 _ => raise
  end.

Definition call_normalized_adjacency (A : loc) (symmetric : bool) : M F loc :=
  exec a <- load_matrix A in
  exec r <- lift (normalized_adjacency a symmetric) in
  alloc (Rank2 r).

(** The conversion of a value of element type [src] stored into an array
    of element type [d]. *)
Definition cast_to (d src : dtype) (x : F) : F :=
  match d, src with
  | Int64, Float64 => fto_int x
  | _, _ => x
  end.

(** The rows written by [fltr[i] = X]: [X] broadcast to the slice shape and
    converted to the element type of [fltr]. *)
Definition assigned_rows (d : dtype) (n m : nat) (X : matrix F)
  : option (list (list F)) :=
  let r := m_nrows X in
  let c := m_cols X in
  if ((r =? n) || (r =? 1)) && ((c =? m) || (c =? 1)) then
    Some (build n m (fun i j => cast_to d (m_dtype X)
                                 (at_ (m_rows X) (bidx r i) (bidx c j))))
  else None.

(** [fltr[i] = X] *)
Definition setitem (fltr : loc) (i : nat) (X : loc) : M F unit :=
  exec f <- load fltr in
  exec x <- load_matrix X in
  match f with
  | Rank3 d n m slices =>
      if i <? length slices then
        exec rows <- lift (assigned_rows d n m x) in
        store fltr (Rank3 d n m (<[i := rows]> slices))
      else raise
  | Rank2 _ => raise
  end.

(** [fltr.sort_indices()]: the stored entries are put in canonical order in
    place; the matrix they denote is the same. *)
Definition sort_indices (fltr : loc) : M F unit :=
  exec v <- load fltr in store fltr v.

Fixpoint for_range (range : list nat) (body : nat -> M F unit) : M F unit :=
  match range with
  | [] => ret tt
  | i :: rest => exec _ <- body i in for_range rest body
  end.

Definition localpooling_filter (A : loc) (symmetric : bool) : M F loc :=
  exec a <- load A in
  exec fltr <- copy A in
  exec I <- alloc (Rank2 (if issparse a
                          then sp_eye (shape_last a) (ndarray_dtype a)
                          else np_eye (shape_last a) (ndarray_dtype a))) in
  exec fltr <-
    (if ndarray_ndim a =? 3 then
       exec _ <- for_range (seq 0 (shape_first a))
                   (fun i =>
                      exec A_tilde <- add_slice A i I in
                      exec r <- call_normalized_adjacency A_tilde symmetric in
                      setitem fltr i r) in
       ret fltr
     else
       exec A_tilde <- add_ A I in
       call_normalized_adjacency A_tilde symmetric) in
  exec f <- load fltr in
  exec _ <- (if issparse f then sort_indices fltr else ret tt) in
  ret fltr.

(** The rows a slice assignment stores for a square result [fl]. *)
Definition stored_rows (d : dtype) (fl : matrix F) : list (list F) :=
  map (map (cast_to d (m_dtype fl))) (m_rows fl).

(** The filter of one slice of a batch of element type [d]. *)
Definition slice_filter (d : dtype) (n : nat) (symmetric : bool)
    (s : list (list F)) : option (matrix F) :=
  do At <- matrix_add (slice_matrix d n s) (np_eye n d) in
  normalized_adjacency At symmetric.

(** A computation keeps the first [n] objects of the store: it leaves them
    as they are, removes nothing, and what it returns satisfies [Q]. *)
Definition keeps (n : nat) {A} (m : M F A) (Q : A -> Prop) : Prop :=
  forall h : heap F, n <= length h ->
    take n (snd (m h)) = take n h /\
    length h <= length (snd (m h)) /\
    forall x, fst (m h) = Some x -> Q x.

End Filter.

(** The adjacency matrix of the two-node cycle, [[0,1],[1,0]]. *)
Definition two_cycle {F} `{Scalar F} (sp : bool) (d : dtype) : matrix F :=
  {| m_sparse := sp; m_dtype := d; m_cols := 2;
     m_rows := [[fzero; fone]; [fone; fzero]] |}.

(** ** Two engines *)

(** *** Binary64 scalars

    The element type of the arrays at run time.  The engine's power function
    is not one of the IEEE operations; this instance fixes it on the two
    exponents the module passes, by the division and the square root, which
    give the correctly rounded power whenever the reciprocal is exact, and
    leaves it undefined (NaN) elsewhere. *)
Definition float_power (x k : float) : float :=
  if PrimFloat.eqb k (-1)%float then PrimFloat.div 1%float x
  else if PrimFloat.eqb k (-0.5)%float
       then PrimFloat.sqrt (PrimFloat.div 1%float x)
       else nan.

(** Conversion to a 64-bit integer, towards zero; values out of range go to
    the least integer. *)
Definition float_to_int (x : float) : float :=
  match Prim2SF x with
  | S754_zero _ => 0%float
  | S754_finite s m e =>
      let z := match e with
               | Zneg p => Z.shiftr (Zpos m) (Zpos p)
               | _ => Z.shiftl (Zpos m) e
               end in
      if (z <? 2 ^ 63)%Z then
        let f := PrimFloat.of_uint63 (Uint63.of_Z z) in
        if s then PrimFloat.opp f else f
      else (-9223372036854775808)%float
  | _ => (-9223372036854775808)%float
  end.

(** An integer rounded to the nearest binary64 value. *)
Definition float_of_Z (z : Z) : float :=
  SF2Prim (binary_normalize prec emax z 0 false).

#[export] Instance float64 : Scalar float := {|
  fzero := 0%float;
  fone := 1%float;
  fadd := PrimFloat.add;
  fmul := PrimFloat.mul;
  fpower := float_power;
  fisinf := PrimFloat.is_infinity;
  fneg_half := (-0.5)%float;
  fneg_one := (-1)%float;
  fto_int := float_to_int;
  fof_int := float_of_Z
|}.

(** *** Exact real arithmetic

    The scalars as real numbers: no rounding and no infinite value. *)
Definition real_to_int (x : R) : R :=
  if Rle_dec 0 x then IZR (Int_part x) else Ropp (IZR (Int_part (Ropp x))).

#[export] Instance exact_real : Scalar R := {|
  fzero := 0%R;
  fone := 1%R;
  fadd := Rplus;
  fmul := Rmult;
  fpower := Rpower;
  fisinf := fun _ => false;
  fneg_half := (- / 2)%R;
  fneg_one := (- 1)%R;
  fto_int := real_to_int;
  fof_int := IZR
|}.

(** *** Exact arithmetic with an infinite value

    The reals with one point at infinity, which absorbs sums and products
    except that zero times infinity is zero; a negative power of zero is
    infinite. *)
Inductive xreal := Finite (r : R) | Infinity.

Definition xreal_add (x y : xreal) : xreal :=
  match x, y with
  | Finite a, Finite b => Finite (a + b)
  | _, _ => Infinity
  end.

Definition xreal_mul (x y : xreal) : xreal :=
  match x, y with
  | Finite a, Finite b => Finite (a * b)
  | Finite a, Infinity | Infinity, Finite a =>
      if Req_EM_T a 0 then Finite 0 else Infinity
  | Infinity, Infinity => Infinity
  end.

Definition xreal_power (x k : xreal) : xreal :=
  match x, k with
  | Finite a, Finite e =>
      if Req_EM_T a 0
      then (if Rlt_dec e 0 then Infinity
            else if Req_EM_T e 0 then Finite 1 else Finite 0)
      else Finite (Rpower a e)
  | _, _ => Infinity
  end.

Definition xreal_isinf (x : xreal) : bool :=
  match x with Finite _ => false | Infinity => true end.

Definition xreal_to_int (x : xreal) : xreal :=
  match x with Finite a => Finite (real_to_int a) | Infinity => Infinity end.

#[export] Instance extended_real : Scalar xreal := {|
  fzero := Finite 0;
  fone := Finite 1;
  fadd := xreal_add;
  fmul := xreal_mul;
  fpower := xreal_power;
  fisinf := xreal_isinf;
  fneg_half := Finite (- / 2);
  fneg_one := Finite (- 1);
  fto_int := xreal_to_int;
  fof_int := fun z => Finite (IZR z)
|}.

(** * Properties *)

(** ** Lists built over an index range *)

Lemma nth_map_seq {A} (f : nat -> A) n i d :
  i < n -> nth i (map f (seq 0 n)) d = f i.
Proof.
  intros Hi.
  rewrite (nth_indep _ d (f 0)) by (rewrite length_map, length_seq; exact Hi).
  rewrite map_nth, seq_nth by exact Hi. reflexivity.
Qed.

Lemma length_grid {A} (g : nat -> nat -> A) rows cols s :
  length (flat_map (fun i => map (g i) (seq 0 cols)) (seq s rows)) = rows * cols.
Proof.
  revert s. induction rows as [|r IH]; intros s; simpl; [reflexivity|].
  rewrite length_app, length_map, length_seq, IH. reflexivity.
Qed.

Lemma nth_grid {A} (g : nat -> nat -> A) rows cols s i k d :
  i < rows -> k < cols ->
  nth (i * cols + k)
    (flat_map (fun i => map (g i) (seq 0 cols)) (seq s rows)) d = g (s + i) k.
Proof.
  revert s i. induction rows as [|r IH]; intros s i Hi Hk; [lia|].
  simpl. destruct i as [|i].
  - rewrite app_nth1 by (rewrite length_map, length_seq; simpl; lia).
    simpl. rewrite nth_map_seq by exact Hk. f_equal. lia.
  - rewrite app_nth2 by (rewrite length_map, length_seq; simpl; lia).
    rewrite length_map, length_seq.
    replace (S i * cols + k - cols) with (i * cols + k) by (simpl; lia).
    rewrite IH by lia. f_equal. lia.
Qed.

Lemma grid_ext {A} (g g' : nat -> nat -> A) rows cols :
  (forall i k, i < rows -> k < cols -> g i k = g' i k) ->
  flat_map (fun i => map (g i) (seq 0 cols)) (seq 0 rows) =
  flat_map (fun i => map (g' i) (seq 0 cols)) (seq 0 rows).
Proof.
  intros E. rewrite !flat_map_concat_map. f_equal.
  apply map_ext_in. intros i Hi. apply in_seq in Hi.
  apply map_ext_in. intros k Hk. apply in_seq in Hk.
  apply E; lia.
Qed.

(** ** Row-major indices *)

Lemma numel_pos (sh ix : list nat) : Forall2 lt ix sh -> 0 < numel sh.
Proof.
  induction 1 as [|i d ix sh Hid _ IH]; simpl; [lia|]. nia.
Qed.

Lemma ravel_bound (sh ix : list nat) :
  Forall2 lt ix sh -> ravel sh ix < numel sh.
Proof.
  induction 1 as [|i d ix sh Hid Hrest IH]; simpl; [lia|]. nia.
Qed.

Lemma unravel_ravel (sh ix : list nat) :
  Forall2 lt ix sh -> unravel sh (ravel sh ix) = ix.
Proof.
  induction 1 as [|i d ix sh Hid Hrest IH]; simpl; [reflexivity|].
  pose proof (ravel_bound _ _ Hrest) as Hb.
  assert (Hn : numel sh <> 0) by lia.
  rewrite Nat.div_add_l, Nat.div_small, Nat.add_0_r by lia.
  rewrite Nat.add_comm, Nat.Div0.mod_add, Nat.mod_small by lia.
  rewrite IH. reflexivity.
Qed.

Lemma unravel_bound (sh : list nat) o :
  o < numel sh -> Forall2 lt (unravel sh o) sh.
Proof.
  revert o. induction sh as [|d sh IH]; intros o Ho; simpl in *; [constructor|].
  assert (Hn : numel sh <> 0) by (intros E; rewrite E in Ho; lia).
  constructor.
  - apply Nat.Div0.div_lt_upper_bound. lia.
  - apply IH. apply Nat.mod_upper_bound. exact Hn.
Qed.

Lemma ravel_unravel (sh : list nat) o :
  o < numel sh -> ravel sh (unravel sh o) = o.
Proof.
  revert o. induction sh as [|d sh IH]; intros o Ho; simpl in *; [lia|].
  assert (Hn : numel sh <> 0) by (intros E; rewrite E in Ho; lia).
  rewrite IH by (apply Nat.mod_upper_bound; exact Hn).
  rewrite (Nat.div_mod_eq o (numel sh)) at 3. lia.
Qed.

Section TensorProperties.
Context {F : Type} `{Scalar F}.
Implicit Types a b fltr features : tensor F.

(** ** Mode detection and dispatch *)

Lemma autodetect_mode_ranks a b :
  autodetect_mode a b =
    match ndim a, ndim b with
    | 2, 2 => SINGLE
    | 2, 3 => MIXED
    | 3, 2 => iMIXED
    | 3, 3 => BATCH
    | _, _ => UNKNOWN
    end.
Proof.
  unfold autodetect_mode.
  destruct (ndim a) as [|[|[|[|ra]]]], (ndim b) as [|[|[|[|rb]]]]; reflexivity.
Qed.

(** C6: [autodetect_mode] is total and its code depends on the two ranks
    only: SINGLE (1) for ranks (2,2), MIXED (2) for (2,3), iMIXED (3) for
    (3,2), BATCH (4) for (3,3) and UNKNOWN (-1) for every other pair. *)
Theorem autodetect_mode_table a b :
  autodetect_mode a b =
    match ndim a, ndim b with
    | 2, 2 => 1%Z
    | 2, 3 => 2%Z
    | 3, 2 => 3%Z
    | 3, 3 => 4%Z
    | _, _ => (-1)%Z
    end.
Proof.
  unfold autodetect_mode.
  destruct (ndim a) as [|[|[|[|ra]]]], (ndim b) as [|[|[|[|rb]]]]; reflexivity.
Qed.

Lemma autodetect_mode_cases a b :
  autodetect_mode a b = SINGLE \/ autodetect_mode a b = MIXED \/
  autodetect_mode a b = iMIXED \/ autodetect_mode a b = BATCH \/
  autodetect_mode a b = UNKNOWN.
Proof.
  rewrite autodetect_mode_ranks.
  destruct (ndim a) as [|[|[|[|ra]]]], (ndim b) as [|[|[|[|rb]]]]; cbv; tauto.
Qed.

(** C5: [filter_dot] hands SINGLE and BATCH pairs to [dot] with both
    transpose flags off and every other pair (MIXED, iMIXED, UNKNOWN) to
    [mixed_mode_dot]; a rank-2 filter with rank-2 features gives exactly
    [dot fltr features]. *)
Theorem filter_dot_dispatch fltr features :
  (autodetect_mode fltr features = SINGLE \/
   autodetect_mode fltr features = BATCH ->
   filter_dot fltr features = dot fltr features false false) /\
  (autodetect_mode fltr features = MIXED \/
   autodetect_mode fltr features = iMIXED \/
   autodetect_mode fltr features = UNKNOWN ->
   filter_dot fltr features = mixed_mode_dot fltr features) /\
  (ndim fltr = 2 -> ndim features = 2 ->
   filter_dot fltr features = dot fltr features false false).
Proof.
  unfold filter_dot.
  repeat split.
  - intros [-> | ->]; reflexivity.
  - intros [-> | [-> | ->]]; reflexivity.
  - intros Hf Hx. rewrite autodetect_mode_ranks, Hf, Hx. reflexivity.
Qed.

(** ** Sparsity of a product *)

Lemma wrap_product_csr (x y : operand F) sh v :
  is_csr (wrap_product x y sh v) = is_csr x && is_csr y.
Proof. unfold wrap_product. destruct (is_csr x && is_csr y); reflexivity. Qed.

Lemma wrap_product_sparse (x y : operand F) sh v :
  is_sparse (op_tensor (wrap_product x y sh v)) = is_csr x && is_csr y.
Proof. unfold wrap_product. destruct (is_csr x && is_csr y); reflexivity. Qed.

Lemma tfsp_matmul_csr (x y : operand F) ta tb out :
  tfsp_matmul x y ta tb = Some out ->
  is_csr out = is_csr x && is_csr y /\
  is_sparse (op_tensor out) = is_csr x && is_csr y.
Proof.
  unfold tfsp_matmul.
  destruct (int_shape (op_tensor x)) as [|n [|m [|q [|? ?]]]];
    destruct (int_shape (op_tensor y)) as [|n' [|m' [|q' [|? ?]]]];
    try discriminate.
  - destruct (logical_dims ta n m), (logical_dims tb n' m').
    destruct (_ =? _); [|discriminate].
    intros [= <-]. split; [apply wrap_product_csr | apply wrap_product_sparse].
  - destruct (logical_dims ta m q), (logical_dims tb m' q').
    destruct (_ && _); [|discriminate].
    intros [= <-]. split; [apply wrap_product_csr | apply wrap_product_sparse].
Qed.

Lemma is_csr_as_operand a : is_csr (as_operand a) = is_sparse a.
Proof. unfold as_operand. destruct (is_sparse a); reflexivity. Qed.

Lemma dot_unfold a b ta tb :
  dot a b ta tb =
    match tfsp_matmul (as_operand a) (as_operand b) ta tb with
    | Some (CSRSparseMatrix t) => Some (to_sparse_tensor t)
    | Some (PlainTensor t) => Some t
    | None => None
    end.
Proof. reflexivity. Qed.

(** C10: the product returned by [dot] is a sparse tensor exactly when both
    operands are sparse tensors; with a dense operand on either side it is
    dense.  The call returns for rank-2 and rank-3 operands whose inner (and
    batch) extents agree. *)
Theorem dot_sparse_iff_both_sparse a b ta tb :
  (forall out, dot a b ta tb = Some out ->
     is_sparse out = is_sparse a && is_sparse b) /\
  (forall n m p, int_shape a = [n; m] -> int_shape b = [m; p] ->
     exists out, dot a b false false = Some out /\ int_shape out = [n; p]) /\
  (forall s n m p, int_shape a = [s; n; m] -> int_shape b = [s; m; p] ->
     exists out, dot a b false false = Some out /\ int_shape out = [s; n; p]).
Proof.
  split; [|split].
  - intros out. rewrite dot_unfold.
    destruct (tfsp_matmul _ _ _ _) as [o|] eqn:E; [|discriminate].
    apply tfsp_matmul_csr in E as [E1 E2].
    rewrite !is_csr_as_operand in *.
    destruct o as [t|t]; intros [= <-]; simpl in *; congruence.
  - intros n m p Ha Hb. rewrite dot_unfold. unfold tfsp_matmul.
    replace (int_shape (op_tensor (as_operand a))) with [n; m]
      by (unfold as_operand; destruct (is_sparse a); simpl; congruence).
    replace (int_shape (op_tensor (as_operand b))) with [m; p]
      by (unfold as_operand; destruct (is_sparse b); simpl; congruence).
    simpl. rewrite Nat.eqb_refl. unfold wrap_product.
    destruct (_ && _); eexists; split; reflexivity.
  - intros s n m p Ha Hb. rewrite dot_unfold. unfold tfsp_matmul.
    replace (int_shape (op_tensor (as_operand a))) with [s; n; m]
      by (unfold as_operand; destruct (is_sparse a); simpl; congruence).
    replace (int_shape (op_tensor (as_operand b))) with [s; m; p]
      by (unfold as_operand; destruct (is_sparse b); simpl; congruence).
    simpl. rewrite !Nat.eqb_refl. simpl. unfold wrap_product.
    destruct (_ && _); eexists; split; reflexivity.
Qed.


(** ** Transposition and the transpose flag *)

Lemma dotsum_ext n (f g : nat -> F) :
  (forall j, j < n -> f j = g j) -> dotsum n f = dotsum n g.
Proof.
  intros E. unfold dotsum. generalize (@fzero F _).
  assert (Hin : forall j, In j (seq 0 n) -> f j = g j)
    by (intros j Hj; apply in_seq in Hj; apply E; lia).
  induction (seq 0 n) as [|j l IH]; intros acc; simpl; [reflexivity|].
  rewrite Hin by (left; reflexivity). apply IH.
  intros j' Hj'. apply Hin. right. exact Hj'.
Qed.

Lemma transpose_unfold a perm :
  transpose a perm =
    permute_axes (is_sparse a) a (match perm with None => [1; 0] | Some p => p end).
Proof. unfold transpose. destruct (is_sparse a); reflexivity. Qed.

Lemma reshape_unfold a shape :
  reshape a shape = with_shape (is_sparse a) a shape.
Proof. unfold reshape. destruct (is_sparse a); reflexivity. Qed.

Lemma permute_axes_get sp a perm t ix :
  permute_axes sp a perm = Some t ->
  Forall2 lt ix (int_shape t) ->
  get t ix =
    get a (map (fun e => nth (index_of e perm) ix 0) (seq 0 (ndim a))).
Proof.
  unfold permute_axes. destruct (is_perm _ _); [|discriminate].
  intros [= <-] Hix. unfold get; simpl in *.
  rewrite nth_map_seq by (apply ravel_bound; exact Hix).
  rewrite unravel_ravel by exact Hix. reflexivity.
Qed.

Lemma permute_axes_shape sp a perm t :
  permute_axes sp a perm = Some t ->
  is_sparse t = sp /\ int_shape t = map (fun p => nth p (int_shape a) 0) perm /\
  wf_tensor t.
Proof.
  unfold permute_axes. destruct (is_perm _ _); [|discriminate].
  intros [= <-]. unfold wf_tensor. simpl.
  rewrite length_map, length_seq. auto.
Qed.

Lemma matmul_csr_irrelevant (x x' y y' : operand F) ta tb :
  is_csr x = is_csr x' -> is_csr y = is_csr y' ->
  int_shape (op_tensor x) = int_shape (op_tensor x') ->
  int_shape (op_tensor y) = int_shape (op_tensor y') ->
  values (op_tensor x) = values (op_tensor x') ->
  values (op_tensor y) = values (op_tensor y') ->
  tfsp_matmul x y ta tb = tfsp_matmul x' y' ta tb.
Proof.
  intros Hx Hy Sx Sy Vx Vy. unfold tfsp_matmul, wrap_product.
  rewrite Hx, Hy, Sx, Sy, Vx, Vy. reflexivity.
Qed.

Lemma transposed_entry2 a n m t i j :
  int_shape a = [n; m] ->
  permute_axes (is_sparse a) a [1; 0] = Some t ->
  i < m -> j < n ->
  entry false n 0 (values t) i j = entry true m 0 (values a) i j.
Proof.
  intros Ha Ht Hi Hj.
  pose proof (permute_axes_shape _ _ _ _ Ht) as (_ & Hsh & _).
  rewrite Ha in Hsh. simpl in Hsh.
  assert (Hix : Forall2 lt [i; j] (int_shape t))
    by (rewrite Hsh; repeat constructor; assumption).
  pose proof (permute_axes_get _ _ _ _ _ Ht Hix) as G.
  unfold get, ndim in G. rewrite Ha, Hsh in G. simpl in G.
  unfold entry. simpl.
  replace (i * n + j) with (i * (n * 1) + (j * 1 + 0)) by lia.
  rewrite G. f_equal. lia.
Qed.

Lemma transposed_entry3 a s n m t c i j :
  int_shape a = [s; n; m] ->
  permute_axes (is_sparse a) a [0; 2; 1] = Some t ->
  c < s -> i < m -> j < n ->
  entry false n (c * (m * n)) (values t) i j =
  entry true m (c * (n * m)) (values a) i j.
Proof.
  intros Ha Ht Hc Hi Hj.
  pose proof (permute_axes_shape _ _ _ _ Ht) as (_ & Hsh & _).
  rewrite Ha in Hsh. simpl in Hsh.
  assert (Hix : Forall2 lt [c; i; j] (int_shape t))
    by (rewrite Hsh; repeat constructor; assumption).
  pose proof (permute_axes_get _ _ _ _ _ Ht Hix) as G.
  unfold get, ndim in G. rewrite Ha, Hsh in G. simpl in G.
  unfold entry.
  replace (c * (m * n) + (i * n + j))
    with (c * (m * (n * 1)) + (i * (n * 1) + (j * 1 + 0))) by lia.
  rewrite G. f_equal. lia.
Qed.

Lemma op_tensor_as_operand a : op_tensor (as_operand a) = a.
Proof. unfold as_operand. destruct (is_sparse a); reflexivity. Qed.

Lemma matmul_block_ext ta tb ta' tb' ca cb ca' cb' ba bb ba' bb'
    (va vb va' vb' : list F) rows inner cols :
  (forall i j, i < rows -> j < inner ->
     entry ta ca ba va i j = entry ta' ca' ba' va' i j) ->
  (forall j k, j < inner -> k < cols ->
     entry tb cb bb vb j k = entry tb' cb' bb' vb' j k) ->
  matmul_block ta tb ca cb ba bb va vb rows inner cols =
  matmul_block ta' tb' ca' cb' ba' bb' va' vb' rows inner cols.
Proof.
  intros Ea Eb. unfold matmul_block. apply grid_ext. intros i k Hi Hk.
  apply dotsum_ext. intros j Hj. rewrite Ea, Eb by assumption. reflexivity.
Qed.

Lemma matmul_transpose_a2 a b n m t :
  int_shape a = [n; m] ->
  permute_axes (is_sparse a) a [1; 0] = Some t ->
  tfsp_matmul (as_operand a) (as_operand b) true false =
  tfsp_matmul (as_operand t) (as_operand b) false false.
Proof.
  intros Ha Ht.
  pose proof (permute_axes_shape _ _ _ _ Ht) as (Hsp & Hsh & _).
  rewrite Ha in Hsh. simpl in Hsh.
  unfold tfsp_matmul, wrap_product.
  rewrite !is_csr_as_operand, !op_tensor_as_operand, Ha, Hsh, Hsp.
  destruct (int_shape b) as [|m' [|p [|? ?]]]; try reflexivity.
  simpl. destruct (n =? m'); [|reflexivity].
  rewrite (matmul_block_ext true false false false m p n p 0 0 0 0
             (values a) (values b) (values t) (values b)); [reflexivity| |].
  - intros i j Hi Hj. symmetry. eapply transposed_entry2; eassumption.
  - reflexivity.
Qed.

Lemma flat_map_ext_seq {A} (f g : nat -> list A) n :
  (forall c, c < n -> f c = g c) ->
  flat_map f (seq 0 n) = flat_map g (seq 0 n).
Proof.
  intros E. rewrite !flat_map_concat_map. f_equal.
  apply map_ext_in. intros c Hc. apply in_seq in Hc. apply E. lia.
Qed.

Lemma matmul_transpose_a3 a b s n m t :
  int_shape a = [s; n; m] ->
  permute_axes (is_sparse a) a [0; 2; 1] = Some t ->
  tfsp_matmul (as_operand a) (as_operand b) true false =
  tfsp_matmul (as_operand t) (as_operand b) false false.
Proof.
  intros Ha Ht.
  pose proof (permute_axes_shape _ _ _ _ Ht) as (Hsp & Hsh & _).
  rewrite Ha in Hsh. simpl in Hsh.
  unfold tfsp_matmul, wrap_product.
  rewrite !is_csr_as_operand, !op_tensor_as_operand, Ha, Hsh, Hsp.
  destruct (int_shape b) as [|s' [|m' [|p [|? ?]]]]; try reflexivity.
  simpl. destruct ((s =? s') && (n =? m')); [|reflexivity].
  rewrite (flat_map_ext_seq
             (fun c => matmul_block true false m p (c * (n * m)) (c * (m' * p))
                         (values a) (values b) m n p)
             (fun c => matmul_block false false n p (c * (m * n)) (c * (m' * p))
                         (values t) (values b) m n p)); [reflexivity|].
  intros c Hc. apply matmul_block_ext; [|reflexivity].
  intros i j Hi Hj. symmetry. eapply transposed_entry3; eassumption.
Qed.

(** C9: with [transpose_a] set, [dot] returns what it returns on the
    explicitly transposed [a] with both flags off: for a rank-2 [a] the
    transpose of the module with its default permutation, for a rank-3 [a]
    the permutation that swaps the innermost two axes; dense or sparse, and
    the call returns for a square [a] and a [b] whose extents agree. *)
Theorem dot_transpose_a_flag a b :
  (forall n m, int_shape a = [n; m] ->
     exists a', transpose a None = Some a' /\ int_shape a' = [m; n] /\
                dot a b true false = dot a' b false false) /\
  (forall s n m, int_shape a = [s; n; m] ->
     exists a', transpose a (Some [0; 2; 1]) = Some a' /\
                int_shape a' = [s; m; n] /\
                dot a b true false = dot a' b false false) /\
  (forall n p, int_shape a = [n; n] -> int_shape b = [n; p] ->
     exists out, dot a b true false = Some out /\ int_shape out = [n; p]) /\
  (forall s n p, int_shape a = [s; n; n] -> int_shape b = [s; n; p] ->
     exists out, dot a b true false = Some out /\ int_shape out = [s; n; p]).
Proof.
  repeat split.
  - intros n m Ha. rewrite transpose_unfold.
    destruct (permute_axes (is_sparse a) a [1; 0]) as [t|] eqn:Ht.
    + exists t. split; [reflexivity|].
      pose proof (permute_axes_shape _ _ _ _ Ht) as (_ & Hsh & _).
      rewrite Ha in Hsh. split; [exact Hsh|].
      rewrite !dot_unfold, (matmul_transpose_a2 a b n m t Ha Ht). reflexivity.
    + unfold permute_axes in Ht. rewrite Ha in Ht. discriminate.
  - intros s n m Ha. rewrite transpose_unfold.
    destruct (permute_axes (is_sparse a) a [0; 2; 1]) as [t|] eqn:Ht.
    + exists t. split; [reflexivity|].
      pose proof (permute_axes_shape _ _ _ _ Ht) as (_ & Hsh & _).
      rewrite Ha in Hsh. split; [exact Hsh|].
      rewrite !dot_unfold, (matmul_transpose_a3 a b s n m t Ha Ht). reflexivity.
    + unfold permute_axes in Ht. rewrite Ha in Ht. discriminate.
  - intros n p Ha Hb. rewrite dot_unfold. unfold tfsp_matmul, wrap_product.
    rewrite !op_tensor_as_operand, Ha, Hb. simpl. rewrite Nat.eqb_refl.
    destruct (_ && _); eexists; split; reflexivity.
  - intros s n p Ha Hb. rewrite dot_unfold. unfold tfsp_matmul, wrap_product.
    rewrite !op_tensor_as_operand, Ha, Hb. simpl. rewrite !Nat.eqb_refl. simpl.
    destruct (_ && _); eexists; split; reflexivity.
Qed.

(** ** The mixed-mode product *)

Lemma resolve_shape_last2 s1 q :
  0 < s1 ->
  resolve_shape (s1 * q) [Z.of_nat s1; (-1)%Z] = Some [s1; q].
Proof.
  intros H1. unfold resolve_shape.
  assert (E1 : (Z.of_nat s1 =? -1)%Z = false) by (apply Z.eqb_neq; lia).
  assert (E2 : (Z.of_nat s1 <? -1)%Z = false) by (apply Z.ltb_ge; lia).
  simpl. rewrite E1, E2. simpl. rewrite Nat2Z.id, Nat.mul_1_r.
  replace (s1 =? 0) with false by (symmetry; apply Nat.eqb_neq; lia).
  rewrite (Nat.mul_comm s1 q), Nat.Div0.mod_mul, Nat.div_mul by lia.
  reflexivity.
Qed.

Lemma resolve_shape_last3 s1 s2 q :
  0 < s1 -> 0 < s2 ->
  resolve_shape (s1 * (s2 * q)) [Z.of_nat s1; Z.of_nat s2; (-1)%Z]
  = Some [s1; s2; q].
Proof.
  intros H1 H2. unfold resolve_shape.
  assert (E1 : (Z.of_nat s1 =? -1)%Z = false) by (apply Z.eqb_neq; lia).
  assert (E2 : (Z.of_nat s1 <? -1)%Z = false) by (apply Z.ltb_ge; lia).
  assert (E3 : (Z.of_nat s2 =? -1)%Z = false) by (apply Z.eqb_neq; lia).
  assert (E4 : (Z.of_nat s2 <? -1)%Z = false) by (apply Z.ltb_ge; lia).
  simpl. rewrite E1, E2, E3, E4. simpl. rewrite !Nat2Z.id, Nat.mul_1_r.
  replace (s1 * s2 =? 0) with false by (symmetry; apply Nat.eqb_neq; nia).
  replace (s1 * (s2 * q)) with (q * (s1 * s2)) by lia.
  rewrite Nat.Div0.mod_mul, Nat.div_mul by nia.
  reflexivity.
Qed.

Lemma dot_rank2 a b n m p :
  int_shape a = [n; m] -> int_shape b = [m; p] ->
  exists out, dot a b false false = Some out /\
    int_shape out = [n; p] /\
    is_sparse out = is_sparse a && is_sparse b /\
    values out =
      matmul_block false false m p 0 0 (values a) (values b) n m p.
Proof.
  intros Ha Hb. rewrite dot_unfold. unfold tfsp_matmul, wrap_product.
  rewrite !op_tensor_as_operand, !is_csr_as_operand, Ha, Hb. simpl.
  rewrite Nat.eqb_refl.
  destruct (is_sparse a && is_sparse b); eexists; repeat split; reflexivity.
Qed.

Lemma mixed_mode_dot_entries a b s0 s1 s2 :
  int_shape a = [s1; s1] -> int_shape b = [s0; s1; s2] ->
  0 < s1 -> 0 < s2 ->
  exists out, mixed_mode_dot a b = Some out /\
    int_shape out = [s0; s1; s2] /\
    is_sparse out = is_sparse a && is_sparse b /\
    wf_tensor out /\
    forall n i k, n < s0 -> i < s1 -> k < s2 ->
      get out [n; i; k] =
        dotsum s1 (fun j => fmul (get a [i; j]) (get b [n; j; k])).
Proof.
  intros Ha Hb H1 H2. unfold mixed_mode_dot. rewrite Hb.
  (* B_T = transpose(b, (1, 2, 0)) *)
  rewrite transpose_unfold.
  destruct (permute_axes (is_sparse b) b [1; 2; 0]) as [BT|] eqn:HBT;
    [|unfold permute_axes in HBT; rewrite Hb in HBT; discriminate].
  pose proof (permute_axes_shape _ _ _ _ HBT) as (SBT & ShBT & _).
  rewrite Hb in ShBT. simpl in ShBT.
  (* B_T = reshape(B_T, (s_1_, -1)) *)
  rewrite reshape_unfold. unfold with_shape. rewrite ShBT.
  replace (numel [s1; s2; s0]) with (s1 * (s2 * s0)) by (simpl; lia).
  rewrite resolve_shape_last2 by exact H1.
  set (BT2 := {| is_sparse := is_sparse BT; int_shape := [s1; s2 * s0];
                 values := values BT |}).
  (* output = dot(a, B_T) *)
  destruct (dot_rank2 a BT2 s1 s1 (s2 * s0) Ha eq_refl)
    as (P & HP & ShP & SP & VP).
  rewrite HP.
  (* output = reshape(output, (s_1_, s_2_, -1)) *)
  rewrite reshape_unfold. unfold with_shape. rewrite ShP.
  replace (numel [s1; s2 * s0]) with (s1 * (s2 * s0)) by (simpl; lia).
  rewrite resolve_shape_last3 by assumption.
  set (P2 := {| is_sparse := is_sparse P; int_shape := [s1; s2; s0];
                values := values P |}).
  (* output = transpose(output, (2, 0, 1)) *)
  rewrite transpose_unfold.
  destruct (permute_axes (is_sparse P2) P2 [2; 0; 1]) as [out|] eqn:Hout;
    [|unfold permute_axes in Hout; discriminate].
  pose proof (permute_axes_shape _ _ _ _ Hout) as (Sout & Shout & Wout).
  simpl in Shout, Sout.
  exists out. split; [reflexivity|]. split; [exact Shout|].
  split; [rewrite Sout, SP; simpl; rewrite SBT; reflexivity|].
  split; [exact Wout|].
  intros n i k Hn Hi Hk.
  assert (Hc : k * s0 + n < s2 * s0) by nia.
  assert (Hix : Forall2 lt [n; i; k] (int_shape out))
    by (rewrite Shout; repeat constructor; assumption).
  rewrite (permute_axes_get _ _ _ _ _ Hout Hix).
  unfold get at 1. simpl. rewrite VP.
  replace (i * (s2 * (s0 * 1)) + (k * (s0 * 1) + (n * 1 + 0)))
    with (i * (s2 * s0) + (k * s0 + n)) by lia.
  unfold matmul_block. rewrite nth_grid by assumption.
  apply dotsum_ext. intros j Hj. f_equal.
  - unfold entry, get. rewrite Ha. simpl. f_equal. lia.
  - assert (Hjx : Forall2 lt [j; k; n] (int_shape BT))
      by (rewrite ShBT; repeat constructor; assumption).
    pose proof (permute_axes_get _ _ _ _ _ HBT Hjx) as G.
    unfold ndim in G. rewrite Hb in G. simpl in G. rewrite <- G.
    unfold entry, get. rewrite ShBT. simpl. f_equal. lia.
Qed.

(** A sum against one row of the identity picks one term, as soon as adding
    a product with zero changes neither zero nor that term, and the product
    with one, added to zero, is the term itself. *)
Lemma dotsum_delta n i (g : nat -> F) :
  (forall j, j < n -> fadd fzero (fmul fzero (g j)) = fzero) ->
  fadd fzero (fmul fone (g i)) = g i ->
  (forall j, j < n -> fadd (g i) (fmul fzero (g j)) = g i) ->
  i < n ->
  dotsum n (fun j => fmul (if i =? j then fone else fzero) (g j)) = g i.
Proof.
  intros Z0 One Zi Hi. unfold dotsum.
  assert (G : forall len s acc, s + len <= n ->
             (s <= i /\ acc = fzero) \/ (i < s /\ acc = g i) ->
             fold_left (fun acc j =>
                          fadd acc (fmul (if i =? j then fone else fzero) (g j)))
               (seq s len) acc
             = if i <? s + len then g i else fzero).
  { induction len as [|len IH]; intros s acc Hs Hacc; simpl.
    - rewrite Nat.add_0_r.
      destruct Hacc as [(Hle & ->)|(Hlt & ->)].
      + replace (i <? s) with false by (symmetry; apply Nat.ltb_ge; lia).
        reflexivity.
      + replace (i <? s) with true by (symmetry; apply Nat.ltb_lt; lia).
        reflexivity.
    - rewrite IH;
        [replace (S s + len) with (s + S len) by lia; reflexivity | lia |].
      destruct Hacc as [(Hle & ->)|(Hlt & ->)].
      + destruct (Nat.eqb_spec i s) as [->|Hne].
        * right. split; [lia | exact One].
        * left. split; [lia | apply Z0; lia].
      + right. split; [lia|].
        replace (i =? s) with false by (symmetry; apply Nat.eqb_neq; lia).
        apply Zi. lia. }
  rewrite G; [|lia|left; split; [lia | reflexivity]]. simpl.
  replace (i <? n) with true by (symmetry; apply Nat.ltb_lt; exact Hi).
  reflexivity.
Qed.

Lemma get_in b s0 s1 s2 n j k :
  int_shape b = [s0; s1; s2] -> wf_tensor b ->
  n < s0 -> j < s1 -> k < s2 ->
  In (get b [n; j; k]) (values b).
Proof.
  intros Hb Wb Hn Hj Hk. unfold get. rewrite Hb. apply nth_In.
  unfold wf_tensor in Wb. rewrite Wb, Hb.
  apply ravel_bound. repeat constructor; assumption.
Qed.

(** C4, as the code has it: for [a] of shape [(s1, s1)] and [b] of shape
    [(s0, s1, s2)] with non-empty node and feature axes, [mixed_mode_dot a b]
    returns the rank-3 tensor of shape [(s0, s1, s2)] whose entry [(n, i, k)]
    is the sum over [j] of [a[i,j] * b[n,j,k]].  When [a] is the identity the
    result has the entries of [b], provided that on the entries [y] of [b]
    the sum [0 + 0 * y] is [0], the sum [0 + 1 * y] is [y] and adding
    [0 * y] to an entry leaves it as it is. *)
Theorem mixed_mode_dot_contracts a b s0 s1 s2 :
  int_shape a = [s1; s1] -> int_shape b = [s0; s1; s2] ->
  0 < s1 -> 0 < s2 ->
  exists out, mixed_mode_dot a b = Some out /\
    int_shape out = [s0; s1; s2] /\
    (forall n i k, n < s0 -> i < s1 -> k < s2 ->
       get out [n; i; k] =
         dotsum s1 (fun j => fmul (get a [i; j]) (get b [n; j; k]))) /\
    ((forall y, In y (values b) -> fadd fzero (fmul fzero y) = fzero) ->
     (forall y, In y (values b) -> fadd fzero (fmul fone y) = y) ->
     (forall x y, In x (values b) -> In y (values b) ->
        fadd x (fmul fzero y) = x) ->
     wf_tensor b ->
     (forall i j, i < s1 -> j < s1 ->
        get a [i; j] = if i =? j then fone else fzero) ->
     values out = values b).
Proof.
  intros Ha Hb H1 H2.
  destruct (mixed_mode_dot_entries a b s0 s1 s2 Ha Hb H1 H2)
    as (out & Hout & Sh & _ & Wf & G).
  exists out. split; [exact Hout|]. split; [exact Sh|]. split; [exact G|].
  intros Z0 One Zi Wb Hid. pose proof Wb as Wb'.
  unfold wf_tensor in Wf, Wb. rewrite Sh in Wf. rewrite Hb in Wb.
  apply (nth_ext _ _ fzero fzero); [congruence|].
  intros o Ho. rewrite Wf in Ho.
  pose proof (unravel_bound [s0; s1; s2] o Ho) as Hb3.
  rewrite <- (ravel_unravel [s0; s1; s2] o Ho).
  generalize dependent (unravel [s0; s1; s2] o). intros ix Hb3.
  inversion Hb3 as [|n ? ix1 ? Hn Hb2]; subst.
  inversion Hb2 as [|i ? ix2 ? Hi Hb1]; subst.
  inversion Hb1 as [|k ? ix3 ? Hk Hb0]; subst.
  inversion Hb0; subst.
  specialize (G n i k Hn Hi Hk).
  unfold get at 1 in G. rewrite Sh in G. rewrite G.
  rewrite (dotsum_ext s1 _
             (fun j => fmul (if i =? j then fone else fzero) (get b [n; j; k])))
    by (intros j Hj; rewrite Hid by assumption; reflexivity).
  assert (Hin : forall j, j < s1 -> In (get b [n; j; k]) (values b))
    by (intros j Hj; apply (get_in b s0 s1 s2); assumption).
  rewrite dotsum_delta;
    [ unfold get; rewrite Hb; reflexivity
    | intros j Hj; apply Z0, Hin; exact Hj
    | apply One, Hin; exact Hi
    | intros j Hj; apply Zi; apply Hin; assumption
    | exact Hi ].
Qed.

End TensorProperties.

Section ArrayProperties.
Context {F : Type} `{Scalar F}.
Implicit Types A X Y : matrix F.

(** ** Matrices built entry by entry *)

Lemma length_build n m (f : nat -> nat -> F) : length (build n m f) = n.
Proof. unfold build. rewrite length_map, length_seq. reflexivity. Qed.

Lemma nth_build n m (f : nat -> nat -> F) i :
  i < n -> nth i (build n m f) [] = map (f i) (seq 0 m).
Proof. intros Hi. unfold build. rewrite nth_map_seq by exact Hi. reflexivity. Qed.

Lemma at_build n m (f : nat -> nat -> F) i j :
  i < n -> j < m -> at_ (build n m f) i j = f i j.
Proof.
  intros Hi Hj. unfold at_. rewrite nth_build by exact Hi.
  apply nth_map_seq. exact Hj.
Qed.

Lemma wf_build n m (f : nat -> nat -> F) :
  Forall (fun r => length r = m) (build n m f).
Proof.
  unfold build. apply List.Forall_forall. intros r Hr.
  apply in_map_iff in Hr as (i & <- & _).
  rewrite length_map, length_seq. reflexivity.
Qed.


(** ** The degree matrix *)

Lemma degree_matrix_unfold A k :
  degree_matrix A k =
    diag (m_sparse A) Float64 (map clamp (map (fun d => fpower d k) (sum1 A))).
Proof. reflexivity. Qed.

Lemma degree_power_float A k :
  degree_power A (FloatExp k) = Some (degree_matrix A k).
Proof.
  unfold degree_power, degree_matrix. simpl. destruct (m_sparse A); reflexivity.
Qed.


Lemma normalized_adjacency_unfold A symmetric :
  normalized_adjacency A symmetric =
    if symmetric then
      do t <- matrix_dot (degree_matrix A fneg_half) A in
      matrix_dot t (degree_matrix A fneg_half)
    else matrix_dot (degree_matrix A fneg_one) A.
Proof.
  unfold normalized_adjacency. rewrite !degree_power_float. reflexivity.
Qed.

Lemma degree_matrix_shape A k :
  m_sparse (degree_matrix A k) = m_sparse A /\
  m_dtype (degree_matrix A k) = Float64 /\
  m_nrows (degree_matrix A k) = m_nrows A /\
  m_cols (degree_matrix A k) = m_nrows A /\
  wf_matrix (degree_matrix A k).
Proof.
  rewrite degree_matrix_unfold. unfold diag, m_nrows, wf_matrix, sum1. simpl.
  rewrite length_build, !length_map. repeat split. apply wf_build.
Qed.





(** ** Sums and products of square matrices *)

Lemma matrix_add_eye A n :
  square n A ->
  exists At, matrix_add A (eye (m_sparse A) n (m_dtype A)) = Some At /\
    square n At /\ m_sparse At = m_sparse A /\ m_dtype At = m_dtype A /\
    forall i j, i < n -> j < n ->
      at_ (m_rows At) i j =
        fadd (at_ (m_rows A) i j) (if i =? j then fone else fzero).
Proof.
  intros (Hr & Hc & Hwf). unfold matrix_add, eye, m_nrows in *. simpl.
  rewrite length_build, Hr, Hc, !Nat.eqb_refl. simpl.
  assert (Hb : bdim n n = Some n) by (unfold bdim; rewrite Nat.eqb_refl; reflexivity).
  rewrite Hb.
  assert (Hdims :
    (if m_sparse A || m_sparse A then Some (n, n) else Some (n, n)) = Some (n, n))
    by (destruct (m_sparse A); reflexivity).
  rewrite Hdims. eexists. split; [reflexivity|].
  unfold square, m_nrows, wf_matrix. simpl. rewrite length_build.
  repeat split.
  - apply wf_build.
  - apply andb_diag.
  - destruct (m_dtype A); reflexivity.
  - intros i j Hi Hj. rewrite at_build by assumption.
    unfold bidx. destruct (n =? 1) eqn:E1.
    + apply Nat.eqb_eq in E1. subst n.
      assert (i = 0) by lia. assert (j = 0) by lia. subst.
      rewrite at_build by lia. reflexivity.
    + rewrite at_build by assumption. reflexivity.
Qed.

Lemma matrix_dot_square X Y n :
  square n X -> square n Y ->
  exists P, matrix_dot X Y = Some P /\ square n P /\
    m_sparse P = m_sparse X && m_sparse Y /\
    m_dtype P = result_type (m_dtype X) (m_dtype Y).
Proof.
  intros (Hr & Hc & _) (Hr' & Hc' & _). unfold matrix_dot.
  rewrite Hc, Hr', Nat.eqb_refl. eexists. split; [reflexivity|].
  unfold square, m_nrows, wf_matrix. simpl. rewrite length_build, Hc'.
  repeat split; [exact Hr | apply wf_build].
Qed.

Lemma degree_matrix_square A k n :
  m_nrows A = n -> square n (degree_matrix A k).
Proof.
  intros Hr. pose proof (degree_matrix_shape A k) as (_ & _ & Hn & Hc & Hwf).
  unfold square. rewrite Hn, Hc. auto.
Qed.

Lemma normalized_adjacency_square A n symmetric :
  square n A ->
  exists R, normalized_adjacency A symmetric = Some R /\ square n R /\
    m_sparse R = m_sparse A /\ m_dtype R = Float64.
Proof.
  intros HA. pose proof HA as (Hr & _).
  rewrite normalized_adjacency_unfold. destruct symmetric.
  - pose proof (degree_matrix_square A fneg_half n Hr) as HD.
    pose proof (degree_matrix_shape A fneg_half) as (Hs & Hd & _).
    destruct (matrix_dot_square _ _ n HD HA) as (T & -> & HT & HsT & HdT).
    destruct (matrix_dot_square _ _ n HT HD) as (R & -> & HR & HsR & HdR).
    exists R. split; [reflexivity|]. split; [exact HR|].
    rewrite HsR, HsT, HdR, HdT, Hs, Hd.
    split; [destruct (m_sparse A); reflexivity | destruct (m_dtype A); reflexivity].
  - pose proof (degree_matrix_square A fneg_one n Hr) as HD.
    pose proof (degree_matrix_shape A fneg_one) as (Hs & Hd & _).
    destruct (matrix_dot_square _ _ n HD HA) as (R & -> & HR & HsR & HdR).
    exists R. split; [reflexivity|]. split; [exact HR|].
    rewrite HsR, HdR, Hs, Hd.
    split; [destruct (m_sparse A); reflexivity | reflexivity].
Qed.

(** ** Normalisation *)


End ArrayProperties.

Section FilterProperties.
Context {F : Type} `{Scalar F}.
Implicit Types h : heap F.
Local Abbreviation keeps := (keeps (F:=F)).

(** ** Running the store operations *)

Lemma bind_ok {A B} (m : M F A) (k : A -> M F B) h x h' :
  m h = (Some x, h') -> bind m k h = k x h'.
Proof. intros E. unfold bind. rewrite E. reflexivity. Qed.

Lemma bind_raise {A B} (m : M F A) (k : A -> M F B) h h' :
  m h = (None, h') -> bind m k h = (None, h').
Proof. intros E. unfold bind. rewrite E. reflexivity. Qed.

Lemma load_ok h l v : h !! l = Some v -> load l h = (Some v, h).
Proof. intros E. unfold load. rewrite E. reflexivity. Qed.

Lemma load_matrix_ok h l X :
  h !! l = Some (Rank2 X) -> load_matrix l h = (Some X, h).
Proof.
  intros E. unfold load_matrix. rewrite (bind_ok _ _ _ _ _ (load_ok _ _ _ E)).
  reflexivity.
Qed.

Lemma copy_ok h l v : h !! l = Some v -> copy l h = (Some (length h), h ++ [v]).
Proof.
  intros E. unfold copy. rewrite (bind_ok _ _ _ _ _ (load_ok _ _ _ E)).
  reflexivity.
Qed.

Lemma add_ok h lx ly X Y S :
  h !! lx = Some (Rank2 X) -> h !! ly = Some (Rank2 Y) ->
  matrix_add X Y = Some S ->
  add_ lx ly h = (Some (length h), h ++ [Rank2 S]).
Proof.
  intros Ex Ey Es. unfold add_.
  rewrite (bind_ok _ _ _ _ _ (load_matrix_ok _ _ _ Ex)).
  rewrite (bind_ok _ _ _ _ _ (load_matrix_ok _ _ _ Ey)).
  rewrite Es. reflexivity.
Qed.

Lemma call_normalized_adjacency_ok h l X symmetric R :
  h !! l = Some (Rank2 X) -> normalized_adjacency X symmetric = Some R ->
  call_normalized_adjacency l symmetric h = (Some (length h), h ++ [Rank2 R]).
Proof.
  intros Ex Er. unfold call_normalized_adjacency.
  rewrite (bind_ok _ _ _ _ _ (load_matrix_ok _ _ _ Ex)).
  rewrite Er. reflexivity.
Qed.

Lemma sort_indices_ok h l v :
  h !! l = Some v -> sort_indices l h = (Some tt, h).
Proof.
  intros E. unfold sort_indices.
  rewrite (bind_ok _ _ _ _ _ (load_ok _ _ _ E)). unfold store.
  pose proof (lookup_lt_Some _ _ _ E) as Hl.
  apply Nat.ltb_lt in Hl. rewrite Hl, list_insert_id by exact E. reflexivity.
Qed.

Ltac heap_lookup :=
  repeat (rewrite lookup_app_l by (rewrite ?length_app; simpl; lia));
  first [ eassumption
        | apply list_lookup_middle; rewrite ?length_app; simpl; lia ].

(** ** The filter of a single adjacency matrix *)

Lemma localpooling_filter_rank2 h A mA symmetric At fl :
  h !! A = Some (Rank2 mA) ->
  matrix_add mA (eye (m_sparse mA) (m_cols mA) (m_dtype mA)) = Some At ->
  normalized_adjacency At symmetric = Some fl ->
  localpooling_filter A symmetric h =
    (Some (length h + 3),
     h ++ [Rank2 mA; Rank2 (eye (m_sparse mA) (m_cols mA) (m_dtype mA));
           Rank2 At; Rank2 fl]).
Proof.
  intros HA Hadd Hnorm.
  assert (HlA : A < length h) by (apply lookup_lt_Some in HA; exact HA).
  unfold localpooling_filter.
  rewrite (bind_ok _ _ _ _ _ (load_ok _ _ _ HA)).
  rewrite (bind_ok _ _ _ _ _ (copy_ok _ _ _ HA)).
  rewrite (bind_ok _ _ _ (length (h ++ [Rank2 mA]))
             ((h ++ [Rank2 mA]) ++
              [Rank2 (eye (m_sparse mA) (m_cols mA) (m_dtype mA))]))
    by (unfold alloc; simpl; destruct (m_sparse mA); reflexivity).
  simpl ndarray_ndim. simpl Nat.eqb. cbv iota.
  erewrite bind_ok; cycle 1.
  { erewrite bind_ok; cycle 1.
    { eapply add_ok; [heap_lookup | heap_lookup | exact Hadd]. }
    eapply call_normalized_adjacency_ok; [heap_lookup | exact Hnorm]. }
  erewrite bind_ok; cycle 1.
  { apply load_ok. heap_lookup. }
  erewrite bind_ok; cycle 1.
  { change (issparse (Rank2 fl)) with (m_sparse fl). destruct (m_sparse fl).
    - eapply sort_indices_ok. heap_lookup.
    - reflexivity. }
  unfold ret. f_equal.
  - f_equal. rewrite !length_app. simpl. lia.
  - rewrite <- !app_assoc. reflexivity.
Qed.

Lemma filter_of_two_cycle (sp : bool) (d : dtype) (half : F) :
  (forall x : F, fadd fzero x = x) -> (forall x : F, fadd x fzero = x) ->
  (forall x : F, fmul x fone = x) ->
  (forall x : F, fmul fzero x = fzero) -> (forall x : F, fmul x fzero = fzero) ->
  fisinf (fpower (fadd fone fone) fneg_half) = false ->
  fmul (fpower (fadd fone fone) fneg_half) (fpower (fadd fone fone) fneg_half)
    = half ->
  exists At fl,
    matrix_add {| m_sparse := sp; m_dtype := d; m_cols := 2;
                  m_rows := [[fzero; fone]; [fone; fzero]] |} (eye sp 2 d)
      = Some At /\
    normalized_adjacency At true = Some fl /\
    m_rows fl = [[half; half]; [half; half]].
Proof.
  intros A0l A0r M1r M0l M0r Hfin Hsq.
  assert (Hdims : (if sp || sp then Some (2, 2) else Some (2, 2)) = Some (2, 2))
    by (destruct sp; reflexivity).
  exists {| m_sparse := sp && sp; m_dtype := result_type d d; m_cols := 2;
            m_rows := [[fone; fone]; [fone; fone]] |}.
  eexists. split.
  { unfold matrix_add, eye, m_nrows. cbn. rewrite Hdims. cbn.
    rewrite !A0l, !A0r. reflexivity. }
  rewrite normalized_adjacency_unfold, degree_matrix_unfold.
  unfold sum1, clamp, matrix_dot, diag, m_nrows. cbn.
  rewrite !A0l, Hfin. cbn.
  split; [reflexivity|]. cbn.
  rewrite ?M1r, ?M0l, ?M0r, ?A0l, ?A0r.
  rewrite ?M1r, ?M0l, ?M0r, ?A0l, ?A0r, ?Hsq.
  rewrite ?A0l, ?A0r.
  reflexivity.
Qed.

Lemma localpooling_filter_square h A mA symmetric n :
  h !! A = Some (Rank2 mA) -> square n mA ->
  exists At fl r h',
    matrix_add mA (eye (m_sparse mA) n (m_dtype mA)) = Some At /\
    normalized_adjacency At symmetric = Some fl /\
    localpooling_filter A symmetric h = (Some r, h') /\
    h' !! r = Some (Rank2 fl).
Proof.
  intros HA Hsq.
  destruct (matrix_add_eye mA n Hsq) as (At & Hadd & HsqAt & _).
  destruct (normalized_adjacency_square At n symmetric HsqAt)
    as (fl & Hnorm & _).
  pose proof Hsq as (_ & Hc & _).
  exists At, fl, (length h + 3).
  eexists. split; [exact Hadd|]. split; [exact Hnorm|].
  split; [apply (localpooling_filter_rank2 h A mA symmetric At fl HA);
          [rewrite Hc; exact Hadd | exact Hnorm]|].
  replace (length h + 3) with (length h + length [Rank2 mA;
    Rank2 (eye (m_sparse mA) (m_cols mA) (m_dtype mA)); Rank2 At] + 0)
    by (simpl; lia).
  rewrite Nat.add_0_r, <- length_app.
  change [Rank2 mA; Rank2 (eye (m_sparse mA) (m_cols mA) (m_dtype mA));
          Rank2 At; Rank2 fl]
    with ([Rank2 mA; Rank2 (eye (m_sparse mA) (m_cols mA) (m_dtype mA));
           Rank2 At] ++ [Rank2 fl]).
  rewrite app_assoc. apply list_lookup_middle. reflexivity.
Qed.

(** ** The caller's objects *)

Lemma keeps_ret {A} n (x : A) (Q : A -> Prop) : Q x -> keeps n (ret x : M F A) Q.
Proof. intros HQ h Hn. simpl. repeat split; [lia|]. intros y [= <-]. exact HQ. Qed.

Lemma keeps_raise {A} n (Q : A -> Prop) : keeps n (raise : M F A) Q.
Proof. intros h Hn. simpl. repeat split; [lia|]. discriminate. Qed.

Lemma keeps_lift {A} n (o : option A) (Q : A -> Prop) :
  (forall x, o = Some x -> Q x) -> keeps n (lift o : M F A) Q.
Proof.
  intros HQ. destruct o as [x|]; [apply keeps_ret; auto | apply keeps_raise].
Qed.

Lemma keeps_weaken {A} n (m : M F A) (Q Q' : A -> Prop) :
  keeps n m Q -> (forall x, Q x -> Q' x) -> keeps n m Q'.
Proof.
  intros Hm HQ h Hn. destruct (Hm h Hn) as (? & ? & ?). repeat split; auto.
Qed.

Lemma keeps_bind {A B} n (m : M F A) (k : A -> M F B) Q R :
  keeps n m Q -> (forall x, Q x -> keeps n (k x) R) -> keeps n (bind m k) R.
Proof.
  intros Hm Hk h Hn. destruct (Hm h Hn) as (Ht & Hl & HQ).
  unfold bind. destruct (m h) as [[x|] h1]; simpl in *.
  - destruct (Hk x (HQ x eq_refl) h1 ltac:(lia)) as (Ht' & Hl' & HR).
    repeat split; [congruence | lia | exact HR].
  - repeat split; [exact Ht | exact Hl | discriminate].
Qed.

Lemma keeps_load n l : keeps n (load l) (fun _ => True).
Proof. intros h Hn. unfold load. simpl. repeat split; lia. Qed.

Lemma keeps_alloc n v : keeps n (alloc v) (fun l => n <= l).
Proof.
  intros h Hn. unfold alloc. simpl. rewrite length_app. simpl.
  repeat split; [|lia|].
  - rewrite take_app_le by exact Hn. reflexivity.
  - intros x [= <-]. exact Hn.
Qed.

Lemma keeps_store n l v : n <= l -> keeps n (store l v) (fun _ => True).
Proof.
  intros Hl h Hn. unfold store. destruct (l <? length h); simpl.
  - rewrite length_insert, take_insert_ge by exact Hl. repeat split; lia.
  - repeat split; lia.
Qed.

Lemma keeps_load_matrix n l : keeps n (load_matrix l) (fun _ => True).
Proof.
  unfold load_matrix. eapply keeps_bind; [apply keeps_load|].
  intros [X|? ? ? ?] _; [apply keeps_ret; exact I | apply keeps_raise].
Qed.

Lemma keeps_copy n l : keeps n (copy l) (fun r => n <= r).
Proof.
  unfold copy. eapply keeps_bind; [apply keeps_load|].
  intros v _. apply keeps_alloc.
Qed.

Lemma keeps_add n lx ly : keeps n (add_ lx ly) (fun r => n <= r).
Proof.
  unfold add_. eapply keeps_bind; [apply keeps_load_matrix|]. intros x _.
  eapply keeps_bind; [apply keeps_load_matrix|]. intros y _.
  eapply keeps_bind; [apply (keeps_lift _ _ (fun _ => True)); auto|].
  intros s _. apply keeps_alloc.
Qed.

Lemma keeps_add_slice n A i I : keeps n (add_slice A i I) (fun r => n <= r).
Proof.
  unfold add_slice. eapply keeps_bind; [apply keeps_load|].
  intros [X|d r c slices] _; [apply keeps_raise|].
  eapply keeps_bind; [apply (keeps_lift _ _ (fun _ => True)); auto|].
  intros s _.
  eapply keeps_bind; [apply keeps_load_matrix|]. intros y _.
  eapply keeps_bind; [apply (keeps_lift _ _ (fun _ => True)); auto|].
  intros t _. apply keeps_alloc.
Qed.

Lemma keeps_call_normalized_adjacency n l symmetric :
  keeps n (call_normalized_adjacency l symmetric) (fun r => n <= r).
Proof.
  unfold call_normalized_adjacency.
  eapply keeps_bind; [apply keeps_load_matrix|]. intros x _.
  eapply keeps_bind; [apply (keeps_lift _ _ (fun _ => True)); auto|].
  intros r _. apply keeps_alloc.
Qed.

Lemma keeps_setitem n fltr i X :
  n <= fltr -> keeps n (setitem fltr i X) (fun _ => True).
Proof.
  intros Hf. unfold setitem. eapply keeps_bind; [apply keeps_load|].
  intros f _. eapply keeps_bind; [apply keeps_load_matrix|]. intros x _.
  destruct f as [?|d r c slices]; [apply keeps_raise|].
  destruct (i <? length slices); [|apply keeps_raise].
  eapply keeps_bind; [apply (keeps_lift _ _ (fun _ => True)); auto|].
  intros rows _. apply keeps_store. exact Hf.
Qed.

Lemma keeps_sort_indices n fltr :
  n <= fltr -> keeps n (sort_indices fltr) (fun _ => True).
Proof.
  intros Hf. unfold sort_indices. eapply keeps_bind; [apply keeps_load|].
  intros v _. apply keeps_store. exact Hf.
Qed.

Lemma keeps_for_range n range (body : nat -> M F unit) :
  (forall i, keeps n (body i) (fun _ => True)) ->
  keeps n (for_range range body) (fun _ => True).
Proof.
  intros Hb. induction range as [|i rest IH]; simpl.
  - apply keeps_ret. exact I.
  - eapply keeps_bind; [apply Hb|]. intros _ _. exact IH.
Qed.

Lemma keeps_localpooling_filter n A symmetric :
  keeps n (localpooling_filter A symmetric) (fun r => n <= r).
Proof.
  unfold localpooling_filter.
  eapply keeps_bind; [apply keeps_load|]. intros a _.
  eapply keeps_bind; [apply keeps_copy|]. intros fltr Hfltr.
  eapply keeps_bind; [apply keeps_alloc|]. intros eye_loc _.
  eapply keeps_bind.
  - destruct (ndarray_ndim a =? 3).
    + eapply keeps_bind.
      * apply keeps_for_range. intros i.
        eapply keeps_bind; [apply keeps_add_slice|]. intros A_tilde _.
        eapply keeps_bind; [apply keeps_call_normalized_adjacency|].
        intros r _. apply keeps_setitem. exact Hfltr.
      * intros _ _. apply keeps_ret. exact Hfltr.
    + eapply keeps_bind; [apply keeps_add|]. intros A_tilde _.
      apply keeps_call_normalized_adjacency.
  - intros fltr' Hfltr'. cbv beta.
    eapply keeps_bind; [apply keeps_load|]. intros f _.
    eapply keeps_bind.
    + destruct (issparse f);
        [apply keeps_sort_indices; exact Hfltr' | apply keeps_ret; exact I].
    + intros _ _. apply keeps_ret. exact Hfltr'.
Qed.

(** C8: whatever the argument (rank 2 or 3, dense or sparse) and the flag,
    and whether the call returns or raises, the store after
    [localpooling_filter] begins with the store before it: the object of the
    caller's [A], like every other object that existed, holds the value it
    held, and a result is a new object. *)
Theorem localpooling_filter_keeps_argument h A symmetric :
  take (length h) (snd (localpooling_filter A symmetric h)) = h /\
  snd (localpooling_filter A symmetric h) !! A = h !! A /\
  (forall l, snd (localpooling_filter A symmetric h) !! l = h !! l \/
             length h <= l) /\
  (forall r, fst (localpooling_filter A symmetric h) = Some r -> length h <= r).
Proof.
  destruct (keeps_localpooling_filter (length h) A symmetric h (le_n _))
    as (Ht & Hl & Hr).
  rewrite firstn_all in Ht.
  assert (Hpre : forall l, l < length h ->
            snd (localpooling_filter A symmetric h) !! l = h !! l).
  { intros l Hlt. rewrite <- Ht at 2. rewrite lookup_take_lt by exact Hlt.
    reflexivity. }
  split; [exact Ht|]. split; [|split].
  - destruct (Nat.lt_ge_cases A (length h)) as [Hlt|Hge]; [auto|].
    unfold localpooling_filter.
    rewrite (bind_raise (load A) _ h h); [reflexivity|].
    unfold load. rewrite lookup_ge_None_2 by exact Hge. reflexivity.
  - intros l. destruct (Nat.lt_ge_cases l (length h)); auto.
  - exact Hr.
Qed.

(** ** The filter of a batch *)

Lemma bidx_id n i : i < n -> bidx n i = i.
Proof.
  intros Hi. unfold bidx. destruct (Nat.eqb_spec n 1); [lia | reflexivity].
Qed.

Lemma build_at_id (rows : list (list F)) n (g : F -> F) :
  length rows = n -> Forall (fun r => length r = n) rows ->
  build n n (fun i j => g (at_ rows (bidx n i) (bidx n j))) = map (map g) rows.
Proof.
  intros Hl Hw. apply (nth_ext _ _ [] (map g [])).
  - rewrite length_build, length_map. congruence.
  - intros i Hi. rewrite length_build in Hi.
    rewrite nth_build by exact Hi. rewrite (map_nth (map g)).
    assert (Hr : length (nth i rows []) = n).
    { rewrite List.Forall_forall in Hw. apply Hw. apply nth_In. lia. }
    apply (nth_ext _ _ (g fzero) (g fzero)).
    + rewrite !length_map, length_seq. congruence.
    + intros j Hj. rewrite length_map, length_seq in Hj.
      rewrite nth_map_seq by exact Hj. rewrite (map_nth g).
      rewrite !bidx_id by assumption. reflexivity.
Qed.

Lemma assigned_rows_square d n fl :
  square n fl -> assigned_rows d n n fl = Some (stored_rows d fl).
Proof.
  intros (Hr & Hc & Hw). unfold assigned_rows, stored_rows.
  rewrite Hr, Hc, Nat.eqb_refl. simpl.
  rewrite build_at_id; [reflexivity | exact Hr |].
  unfold wf_matrix in Hw. rewrite Hc in Hw. exact Hw.
Qed.

Lemma slice_filter_square d n symmetric s :
  square n (slice_matrix d n s) ->
  exists fl, slice_filter d n symmetric s = Some fl /\ square n fl /\
             m_dtype fl = Float64.
Proof.
  intros Hs. unfold slice_filter.
  destruct (matrix_add_eye _ n Hs) as (At & Hadd & HsqAt & _).
  simpl in Hadd. unfold np_eye. rewrite Hadd.
  destruct (normalized_adjacency_square At n symmetric HsqAt)
    as (fl & -> & Hsq & _ & Hd).
  exists fl. auto.
Qed.

Lemma loop_step h A d n slices cur junk symmetric i s fl :
  h !! A = Some (Rank3 d n n slices) ->
  slices !! i = Some s -> i < length cur ->
  slice_filter d n symmetric s = Some fl -> square n fl ->
  exists junk',
    (exec A_tilde <- add_slice A i (S (length h)) in
     exec r <- call_normalized_adjacency A_tilde symmetric in
     setitem (length h) i r)
      (h ++ Rank3 d n n cur :: Rank2 (np_eye n d) :: junk)
    = (Some tt,
       h ++ Rank3 d n n (<[i := stored_rows d fl]> cur)
         :: Rank2 (np_eye n d) :: junk').
Proof.
  intros HA Hs Hi Hfl Hsq.
  assert (HlA : A < length h) by (apply lookup_lt_Some in HA; exact HA).
  unfold slice_filter in Hfl.
  destruct (matrix_add _ _) as [At|] eqn:Hadd; [|discriminate].
  set (H0 := h ++ Rank3 d n n cur :: Rank2 (np_eye n d) :: junk).
  assert (E1 : add_slice A i (S (length h)) H0
               = (Some (length H0), H0 ++ [Rank2 At])).
  { unfold add_slice.
    erewrite bind_ok; cycle 1.
    { apply load_ok. unfold H0. rewrite lookup_app_l by exact HlA. exact HA. }
    cbv beta iota. rewrite Hs. simpl lift.
    erewrite bind_ok; cycle 1. { reflexivity. }
    erewrite bind_ok; cycle 1.
    { apply load_matrix_ok. unfold H0.
      rewrite lookup_app_r by lia.
      replace (S (length h) - length h) with 1 by lia. reflexivity. }
    rewrite Hadd. reflexivity. }
  erewrite bind_ok by exact E1.
  erewrite bind_ok; cycle 1.
  { eapply call_normalized_adjacency_ok; [|exact Hfl].
    apply list_lookup_middle. reflexivity. }
  unfold setitem.
  erewrite bind_ok; cycle 1.
  { apply load_ok. rewrite <- !app_assoc. unfold H0. rewrite <- app_assoc.
    apply list_lookup_middle. reflexivity. }
  erewrite bind_ok; cycle 1.
  { apply load_matrix_ok. apply list_lookup_middle. reflexivity. }
  apply Nat.ltb_lt in Hi. rewrite Hi.
  rewrite (assigned_rows_square d n fl Hsq). simpl lift.
  erewrite bind_ok; cycle 1. { reflexivity. }
  unfold store.
  exists (junk ++ [Rank2 At; Rank2 fl]).
  replace (length h <? length ((H0 ++ [Rank2 At]) ++ [Rank2 fl])) with true
    by (symmetry; apply Nat.ltb_lt; unfold H0; rewrite !length_app; simpl; lia).
  f_equal. unfold H0. rewrite <- !app_assoc.
  rewrite insert_app_r_alt by lia. rewrite Nat.sub_diag. simpl.
  rewrite <- ?app_assoc. reflexivity.
Qed.

Lemma loop_run h A d n slices symmetric :
  h !! A = Some (Rank3 d n n slices) ->
  Forall (fun s => square n (slice_matrix d n s)) slices ->
  forall len j cur junk,
    j + len = length slices -> length cur = length slices ->
    exists cur' junk',
      for_range (seq j len)
        (fun i =>
           exec A_tilde <- add_slice A i (S (length h)) in
           exec r <- call_normalized_adjacency A_tilde symmetric in
           setitem (length h) i r)
        (h ++ Rank3 d n n cur :: Rank2 (np_eye n d) :: junk)
      = (Some tt, h ++ Rank3 d n n cur' :: Rank2 (np_eye n d) :: junk') /\
      length cur' = length slices /\
      (forall i, i < j \/ j + len <= i -> cur' !! i = cur !! i) /\
      (forall i s, j <= i < j + len -> slices !! i = Some s ->
         exists fl, slice_filter d n symmetric s = Some fl /\
                    cur' !! i = Some (stored_rows d fl)).
Proof.
  intros HA Hall. induction len as [|len IH]; intros j cur junk Hj Hcur.
  - exists cur, junk. simpl. repeat split; auto. intros i s Hi. lia.
  - simpl.
    assert (Hjl : j < length slices) by lia.
    destruct (lookup_lt_is_Some_2 slices j Hjl) as (s & Hs).
    assert (Hsq : square n (slice_matrix d n s)).
    { rewrite List.Forall_forall in Hall. apply Hall.
      apply list_elem_of_In. eapply list_elem_of_lookup_2. exact Hs. }
    destruct (slice_filter_square d n symmetric s Hsq) as (fl & Hfl & Hsqfl & _).
    destruct (loop_step h A d n slices cur junk symmetric j s fl HA Hs
                ltac:(lia) Hfl Hsqfl) as (junk1 & Hstep).
    erewrite bind_ok by exact Hstep.
    destruct (IH (S j) (<[j := stored_rows d fl]> cur) junk1 ltac:(lia)
                ltac:(rewrite length_insert; exact Hcur))
      as (cur' & junk' & Hrun & Hlen & Hout & Hin).
    exists cur', junk'. split; [exact Hrun|]. split; [exact Hlen|]. split.
    + intros i Hi. rewrite Hout by lia.
      apply list_lookup_insert_ne. lia.
    + intros i s' Hi Hs'. destruct (Nat.eq_dec i j) as [->|Hne].
      * rewrite Hs in Hs'. injection Hs' as <-. exists fl. split; [exact Hfl|].
        rewrite Hout by lia. apply list_lookup_insert_eq. lia.
      * apply Hin; [lia | exact Hs'].
Qed.

(** The batched call on square slices: slice [i] of the result holds the
    rows of the filter of slice [i], converted to the element type of [A]. *)
Lemma localpooling_filter_batch h A d n slices symmetric :
  h !! A = Some (Rank3 d n n slices) ->
  Forall (fun s => square n (slice_matrix d n s)) slices ->
  exists out h',
    localpooling_filter A symmetric h = (Some (length h), h') /\
    h' !! length h = Some (Rank3 d n n out) /\
    length out = length slices /\
    forall i s, slices !! i = Some s ->
      exists fl, slice_filter d n symmetric s = Some fl /\
                 out !! i = Some (stored_rows d fl).
Proof.
  intros HA Hall.
  destruct (loop_run h A d n slices symmetric HA Hall (length slices) 0
              slices [] eq_refl eq_refl)
    as (out & junk & Hrun & Hlen & _ & Hin).
  exists out. eexists.
  unfold localpooling_filter.
  rewrite (bind_ok _ _ _ _ _ (load_ok _ _ _ HA)).
  rewrite (bind_ok _ _ _ _ _ (copy_ok _ _ _ HA)).
  erewrite bind_ok; cycle 1. { reflexivity. }
  cbn [issparse shape_last ndarray_dtype ndarray_ndim shape_first Nat.eqb].
  rewrite length_app. cbn [length]. rewrite Nat.add_1_r.
  rewrite <- app_assoc. cbn [app].
  erewrite bind_ok; cycle 1.
  { erewrite bind_ok by exact Hrun. reflexivity. }
  erewrite bind_ok; cycle 1.
  { apply load_ok. apply list_lookup_middle. reflexivity. }
  cbn [issparse]. erewrite bind_ok; cycle 1. { reflexivity. }
  split; [reflexivity|]. split; [apply list_lookup_middle; reflexivity|].
  split; [exact Hlen|].
  intros i s Hs. apply Hin; [|exact Hs].
  apply lookup_lt_Some in Hs. lia.
Qed.

Lemma stored_rows_float fl : stored_rows Float64 fl = m_rows fl.
Proof.
  unfold stored_rows, cast_to.
  rewrite (map_ext _ (fun r => r)); [apply map_id|].
  intros r. apply map_id.
Qed.

Lemma stored_rows_int fl :
  m_dtype fl = Float64 ->
  stored_rows Int64 fl = map (map fto_int) (m_rows fl).
Proof. intros E. unfold stored_rows. rewrite E. reflexivity. Qed.

(** X1: for a batch of floating-point square matrices the batched call
    returns a new rank-3 object whose slice [i] holds the rows that
    [localpooling_filter] returns on slice [i] alone. *)
Theorem localpooling_filter_float_batch h A n slices symmetric :
  h !! A = Some (Rank3 Float64 n n slices) ->
  Forall (fun s => square n (slice_matrix Float64 n s)) slices ->
  exists out h',
    localpooling_filter A symmetric h = (Some (length h), h') /\
    h' !! length h = Some (Rank3 Float64 n n out) /\
    length out = length slices /\
    forall i s g B, slices !! i = Some s ->
      g !! B = Some (Rank2 (slice_matrix Float64 n s)) ->
      exists fl r g',
        localpooling_filter B symmetric g = (Some r, g') /\
        g' !! r = Some (Rank2 fl) /\
        out !! i = Some (m_rows fl).
Proof.
  intros HA Hall.
  destruct (localpooling_filter_batch h A Float64 n slices symmetric HA Hall)
    as (out & h' & Hrun & Hres & Hlen & Hin).
  exists out, h'. split; [exact Hrun|]. split; [exact Hres|].
  split; [exact Hlen|].
  intros i s g B Hs HB.
  destruct (Hin i s Hs) as (fl & Hfl & Hout).
  assert (Hsq : square n (slice_matrix Float64 n s)).
  { rewrite List.Forall_forall in Hall. apply Hall.
    apply list_elem_of_In. eapply list_elem_of_lookup_2. exact Hs. }
  unfold slice_filter in Hfl.
  destruct (matrix_add _ _) as [At|] eqn:Hadd; [|discriminate].
  exists fl, (length g + 3). eexists.
  split; [apply (localpooling_filter_rank2 g B _ symmetric At fl HB);
          [exact Hadd | exact Hfl]|].
  rewrite stored_rows_float in Hout. split; [|exact Hout].
  rewrite lookup_app_r by lia.
  replace (length g + 3 - length g) with 3 by lia. reflexivity.
Qed.

End FilterProperties.

(** * The properties on the two engines *)

(** ** Exact arithmetic *)

Lemma real_power_half_squared :
  (Rpower (1 + 1) (- / 2) * Rpower (1 + 1) (- / 2) = / 2)%R.
Proof.
  rewrite <- Rpower_plus.
  replace (- / 2 + - / 2)%R with (- (1))%R by lra.
  rewrite Rpower_Ropp, Rpower_1 by lra. lra.
Qed.


Lemma square_two_cycle {F} `{Scalar F} sp d : square 2 (two_cycle sp d).
Proof. unfold square, wf_matrix. repeat split. repeat constructor. Qed.

(** ** The filter of one matrix *)

(** In binary64 the filter of [[0,1],[1,0]] is not [[0.5,0.5],[0.5,0.5]]:
    its entries are the rounded square of the rounded [2 ** -0.5], which is
    0.5000000000000001. *)
Lemma localpooling_filter_single_binary64 :
  exists fl h',
    localpooling_filter 0 true [Rank2 (two_cycle (F:=float) false Float64)]
      = (Some 4, h') /\
    h' !! 4 = Some (Rank2 fl) /\
    m_rows fl = [[0x1.0000000000001p-1; 0x1.0000000000001p-1];
                 [0x1.0000000000001p-1; 0x1.0000000000001p-1]]%float /\
    m_rows fl <> [[0.5; 0.5]; [0.5; 0.5]]%float.
Proof.
  do 2 eexists. split; [vm_compute; reflexivity|].
  split; [reflexivity|]. split; [reflexivity|].
  intros E.
  apply (f_equal (fun rows => match rows with
                              | (x :: _) :: _ => PrimFloat.eqb x 0.5
                              | _ => true
                              end)) in E.
  vm_compute in E. discriminate E.
Qed.

(** C1, as the code has it: on a square rank-2 [A], [localpooling_filter]
    returns a new object holding [normalized_adjacency (A + I) symmetric],
    with [I] the identity of the size of the last axis of [A], for every
    scalar engine.  For [A = [[0,1],[1,0]]] and the symmetric form every
    entry of the result is the square of [2 ** -0.5] as the engine computes
    it: 0.5000000000000001 in binary64, one half in exact arithmetic. *)
Theorem localpooling_filter_single :
  (forall (F : Type) (S : Scalar F) (h : heap F) A mA symmetric n,
     h !! A = Some (Rank2 mA) -> square n mA ->
     exists At fl r h',
       matrix_add mA (eye (m_sparse mA) n (m_dtype mA)) = Some At /\
       normalized_adjacency At symmetric = Some fl /\
       localpooling_filter A symmetric h = (Some r, h') /\
       h' !! r = Some (Rank2 fl)) /\
  (forall sp d, exists fl r h',
     localpooling_filter 0 true [Rank2 (two_cycle (F:=float) sp d)]
       = (Some r, h') /\
     h' !! r = Some (Rank2 fl) /\
     m_rows fl = [[0x1.0000000000001p-1; 0x1.0000000000001p-1];
                  [0x1.0000000000001p-1; 0x1.0000000000001p-1]]%float) /\
  (forall sp d, exists fl r h',
     localpooling_filter 0 true [Rank2 (two_cycle (F:=R) sp d)]
       = (Some r, h') /\
     h' !! r = Some (Rank2 fl) /\
     m_rows fl = [[/ 2; / 2]; [/ 2; / 2]]%R).
Proof.
  split; [|split].
  - intros F S h A mA symmetric n HA Hsq.
    exact (localpooling_filter_square h A mA symmetric n HA Hsq).
  - intros sp d.
    destruct sp, d; do 3 eexists;
      (split; [vm_compute; reflexivity|]); split; reflexivity.
  - intros sp d.
    destruct (localpooling_filter_square (F:=R)
                [Rank2 (two_cycle sp d)] 0 (two_cycle sp d) true 2
                eq_refl (square_two_cycle sp d))
      as (At & fl & r & h' & H1 & H2 & H3 & H4).
    exists fl, r, h'. split; [exact H3|]. split; [exact H4|].
    destruct (filter_of_two_cycle (F:=R) sp d (/ 2)%R) as
      (At' & fl' & Hadd & Hnorm & Hrows);
      try (simpl; intros; ring); try reflexivity;
      try apply real_power_half_squared.
    unfold two_cycle in H1. cbn [m_sparse m_dtype] in H1.
    rewrite Hadd in H1. injection H1 as <-.
    rewrite Hnorm in H2. injection H2 as <-.
    exact Hrows.
Qed.

(** C1 on binary64: the random-walk filter of the path on three nodes. *)
Lemma localpooling_filter_single_example :
  exists At fl r h',
    matrix_add {| m_sparse := false; m_dtype := Float64; m_cols := 3;
                  m_rows := [[0; 1; 0]; [1; 0; 1]; [0; 1; 0]]%float |}
               (eye false 3 Float64) = Some At /\
    normalized_adjacency At false = Some fl /\
    localpooling_filter 0 false
      [Rank2 {| m_sparse := false; m_dtype := Float64; m_cols := 3;
                m_rows := [[0; 1; 0]; [1; 0; 1]; [0; 1; 0]]%float |}]
      = (Some r, h') /\
    h' !! r = Some (Rank2 fl).
Proof.
  apply (proj1 localpooling_filter_single float float64
           [Rank2 {| m_sparse := false; m_dtype := Float64; m_cols := 3;
                     m_rows := [[0; 1; 0]; [1; 0; 1]; [0; 1; 0]]%float |}]
           0 _ false 3 eq_refl).
  unfold square, wf_matrix. repeat split. repeat constructor.
Defined.

(** ** Normalisation *)


(** ** The mixed-mode product *)

(** A filter with as many rows as [b] has nodes, but three columns, is
    refused by the product; with an empty feature axis no tensor of the
    shape of [b] comes back, the placeholder of the second reshape having
    nothing to be inferred from; and the dense binary64 identity does not
    give back a [b] with an infinite entry, zero times infinity being NaN. *)
Lemma mixed_mode_dot_contracts_refuted :
  mixed_mode_dot (mkTensor false [2; 3] [1; 0; 0; 0; 1; 0]%float)
                 (mkTensor false [1; 2; 1] [1; 2]%float) = None /\
  ~ (exists out,
       mixed_mode_dot (mkTensor false [2; 2] [1; 0; 0; 1]%float)
                      (mkTensor false [3; 2; 0] []) = Some out /\
       int_shape out = [3; 2; 0]) /\
  (exists out,
     mixed_mode_dot (mkTensor false [2; 2] [1; 0; 0; 1]%float)
                    (mkTensor false [1; 2; 1] [infinity; 1]%float) = Some out /\
     values out = [infinity; nan]%float).
Proof.
  split; [reflexivity|]. split.
  - intros (out & Hout & _). vm_compute in Hout. discriminate Hout.
  - eexists. split; [vm_compute; reflexivity | reflexivity].
Qed.

(** C4 on binary64: the sparse 4x4 identity applied to a batch of three 4x2
    feature matrices. *)
Lemma mixed_mode_dot_contracts_binary64 :
  exists out,
    mixed_mode_dot
      (mkTensor true [4; 4]
         [1; 0; 0; 0;  0; 1; 0; 0;  0; 0; 1; 0;  0; 0; 0; 1]%float)
      (mkTensor false [3; 4; 2]
         [1; -2;  0.5; 3;  0; 4.25;  -7; 8;
          9; 10;  -0.125; 12;  13; 0;  15; -16;
          17; 18;  19; -20.5;  21; 22;  0.375; 24]%float) = Some out /\
    int_shape out = [3; 4; 2] /\
    values out =
      [1; -2;  0.5; 3;  0; 4.25;  -7; 8;
       9; 10;  -0.125; 12;  13; 0;  15; -16;
       17; 18;  19; -20.5;  21; 22;  0.375; 24]%float.
Proof.
  destruct (mixed_mode_dot_contracts (F:=float)
              (mkTensor true [4; 4]
                 [1; 0; 0; 0;  0; 1; 0; 0;  0; 0; 1; 0;  0; 0; 0; 1]%float)
              (mkTensor false [3; 4; 2]
                 [1; -2;  0.5; 3;  0; 4.25;  -7; 8;
                  9; 10;  -0.125; 12;  13; 0;  15; -16;
                  17; 18;  19; -20.5;  21; 22;  0.375; 24]%float) 3 4 2
              eq_refl eq_refl ltac:(lia) ltac:(lia))
    as (out & Hout & Hsh & _ & Hid).
  exists out. split; [exact Hout|]. split; [exact Hsh|].
  apply Hid.
  - apply (proj1 (List.Forall_forall _ _)). repeat constructor.
  - apply (proj1 (List.Forall_forall _ _)). repeat constructor.
  - intros x y Hx. revert y. revert x Hx.
    refine (proj1 (List.Forall_forall
                     (fun x : float =>
                        forall y, In y _ -> fadd x (fmul fzero y) = x) _) _).
    repeat (constructor;
            [apply (proj1 (List.Forall_forall _ _)); repeat constructor|]).
    constructor.
  - reflexivity.
  - intros i j Hi Hj.
    do 4 (destruct i as [|i]; [do 4 (destruct j as [|j]; [reflexivity|]); lia|]).
    lia.
Defined.

(** ** Binary64 *)



(** C7: a batch of one integer adjacency matrix [[0,1],[1,0]].  The batched
    call writes the normalised slice into the integer copy, which keeps
    [[0,0],[0,0]]; the call on the slice itself returns
    [[0.5,0.5],[0.5,0.5]]. *)
Theorem localpooling_filter_integer_batch :
  (exists h',
     localpooling_filter 0 false
       [Rank3 Int64 2 2 [[[0; 1]; [1; 0]]]%float] = (Some 1, h') /\
     h' !! 1 = Some (Rank3 Int64 2 2 [[[0; 0]; [0; 0]]]%float)) /\
  (exists h',
     localpooling_filter 0 false
       [Rank2 (two_cycle (F:=float) false Int64)] = (Some 4, h') /\
     h' !! 4 = Some (Rank2 {| m_sparse := false; m_dtype := Float64;
                               m_cols := 2;
                               m_rows := [[0.5; 0.5]; [0.5; 0.5]]%float |})).
Proof.
  split; eexists; (split; [vm_compute; reflexivity | reflexivity]).
Qed.

(** X1 on binary64: a batch of two 2x2 matrices. *)
Lemma localpooling_filter_float_batch_example :
  exists out h',
    localpooling_filter 0 false
      [Rank3 Float64 2 2 [[[0; 1]; [1; 0]]; [[0; 1]; [1; 1]]]%float]
      = (Some 1, h') /\
    h' !! 1 = Some (Rank3 Float64 2 2 out) /\
    length out = 2 /\
    forall i s (g : heap float) B,
      [[[0; 1]; [1; 0]]; [[0; 1]; [1; 1]]]%float !! i = Some s ->
      g !! B = Some (Rank2 (slice_matrix Float64 2 s)) ->
      exists fl r g',
        localpooling_filter B false g = (Some r, g') /\
        g' !! r = Some (Rank2 fl) /\
        out !! i = Some (m_rows fl).
Proof.
  apply (localpooling_filter_float_batch (F:=float)
           [Rank3 Float64 2 2 [[[0; 1]; [1; 0]]; [[0; 1]; [1; 1]]]%float]
           0 2 [[[0; 1]; [1; 0]]; [[0; 1]; [1; 1]]]%float false eq_refl).
  repeat constructor.
Defined.

(** * Further properties of the tensor operations *)

Section MoreTensorProperties.
Context {F : Type} `{Scalar F}.
Implicit Types a b t fltr features : tensor F.

(** ** Transposition *)

Lemma tensor_values_ext a u :
  wf_tensor a -> wf_tensor u -> int_shape u = int_shape a ->
  (forall ix, Forall2 lt ix (int_shape a) -> get u ix = get a ix) ->
  values u = values a.
Proof.
  intros Wa Wu Hsh Hget. unfold wf_tensor in *.
  apply (nth_ext _ _ fzero fzero); [congruence|].
  intros o Ho. rewrite Wu, Hsh in Ho.
  pose proof (unravel_bound _ o Ho) as Hb.
  specialize (Hget _ Hb). unfold get in Hget.
  rewrite Hsh, ravel_unravel in Hget by exact Ho. exact Hget.
Qed.

Lemma tensor_eq a u :
  is_sparse u = is_sparse a -> int_shape u = int_shape a ->
  values u = values a -> u = a.
Proof. destruct a, u. simpl. intros -> -> ->. reflexivity. Qed.

Lemma transpose_rank2 a n m :
  int_shape a = [n; m] ->
  exists t, transpose a None = Some t /\
    is_sparse t = is_sparse a /\ int_shape t = [m; n] /\ wf_tensor t /\
    forall i j, i < m -> j < n -> get t [i; j] = get a [j; i].
Proof.
  intros Ha. rewrite transpose_unfold.
  destruct (permute_axes (is_sparse a) a [1; 0]) as [t|] eqn:Ht;
    [|unfold permute_axes in Ht; rewrite Ha in Ht; discriminate].
  pose proof (permute_axes_shape _ _ _ _ Ht) as (Hsp & Hsh & Hwf).
  rewrite Ha in Hsh. simpl in Hsh.
  exists t. repeat split; try assumption.
  intros i j Hi Hj.
  rewrite (permute_axes_get _ _ _ _ [i; j] Ht)
    by (rewrite Hsh; repeat constructor; assumption).
  unfold ndim. rewrite Ha. reflexivity.
Qed.

(** X2: with no permutation given, [transpose] swaps the two axes of a
    rank-2 tensor and keeps its sparsity; on a tensor of any other rank the
    default is not a permutation of the axes and the call raises. *)
Theorem transpose_default_swaps_axes a :
  (forall n m, int_shape a = [n; m] ->
     exists t, transpose a None = Some t /\
       is_sparse t = is_sparse a /\ int_shape t = [m; n] /\ wf_tensor t /\
       forall i j, i < m -> j < n -> get t [i; j] = get a [j; i]) /\
  (ndim a <> 2 -> transpose a None = None).
Proof.
  split; [apply transpose_rank2|].
  intros Hr. rewrite transpose_unfold. unfold permute_axes, is_perm.
  unfold ndim in Hr. simpl length.
  destruct (Nat.eqb_spec 2 (length (int_shape a))) as [E|E]; [congruence|].
  reflexivity.
Qed.

(** X3: transposing a well-formed rank-2 tensor twice gives the tensor
    back, sparsity flag, shape and entries. *)
Theorem transpose_involutive a n m :
  int_shape a = [n; m] -> wf_tensor a ->
  exists t, transpose a None = Some t /\ transpose t None = Some a.
Proof.
  intros Ha Wa.
  destruct (transpose_rank2 a n m Ha) as (t & Ht & Hsp & Hsh & Wt & Hget).
  destruct (transpose_rank2 t m n Hsh) as (u & Hu & Hsp' & Hsh' & Wu & Hget').
  exists t. split; [exact Ht|]. rewrite Hu. f_equal.
  apply tensor_eq; [congruence | congruence |].
  apply tensor_values_ext; [assumption | assumption | congruence |].
  intros ix Hix. rewrite Ha in Hix.
  inversion Hix as [|i ? ix1 ? Hi Hix1]; subst.
  inversion Hix1 as [|j ? ix2 ? Hj Hix2]; subst.
  inversion Hix2; subst.
  rewrite Hget' by assumption. apply Hget; assumption.
Qed.

Lemma permute_rank3 a s0 s1 s2 perm :
  int_shape a = [s0; s1; s2] ->
  is_perm perm 3 = true ->
  exists t, transpose a (Some perm) = Some t /\
    is_sparse t = is_sparse a /\
    int_shape t = map (fun p => nth p [s0; s1; s2] 0) perm /\ wf_tensor t /\
    forall ix, Forall2 lt ix (int_shape t) ->
      get t ix = get a (map (fun e => nth (index_of e perm) ix 0) [0; 1; 2]).
Proof.
  intros Ha Hp. rewrite transpose_unfold.
  destruct (permute_axes (is_sparse a) a perm) as [t|] eqn:Ht;
    [|unfold permute_axes in Ht; rewrite Ha in Ht; simpl length in Ht;
      rewrite Hp in Ht; discriminate].
  pose proof (permute_axes_shape _ _ _ _ Ht) as (Hsp & Hsh & Hwf).
  rewrite Ha in Hsh.
  exists t. repeat split; try assumption.
  intros ix Hix. rewrite (permute_axes_get _ _ _ _ ix Ht Hix).
  unfold ndim. rewrite Ha. reflexivity.
Qed.

(** X4: the two permutations of [mixed_mode_dot] undo each other: moving
    the batch axis of a well-formed rank-3 tensor last with [(1, 2, 0)] and
    back first with [(2, 0, 1)] gives the tensor back. *)
Theorem transpose_batch_last_and_back b s0 s1 s2 :
  int_shape b = [s0; s1; s2] -> wf_tensor b ->
  exists t, transpose b (Some [1; 2; 0]) = Some t /\
    int_shape t = [s1; s2; s0] /\
    transpose t (Some [2; 0; 1]) = Some b.
Proof.
  intros Hb Wb.
  destruct (permute_rank3 b s0 s1 s2 [1; 2; 0] Hb eq_refl)
    as (t & Ht & Hsp & Hsh & Wt & Hget).
  simpl in Hsh.
  destruct (permute_rank3 t s1 s2 s0 [2; 0; 1] Hsh eq_refl)
    as (u & Hu & Hsp' & Hsh' & Wu & Hget').
  simpl in Hsh'.
  exists t. split; [exact Ht|]. split; [exact Hsh|]. rewrite Hu. f_equal.
  apply tensor_eq; [congruence | congruence |].
  apply tensor_values_ext; [assumption | assumption | congruence |].
  intros ix Hix. rewrite Hb in Hix.
  inversion Hix as [|n ? ix1 ? Hn Hix1]; subst.
  inversion Hix1 as [|i ? ix2 ? Hi Hix2]; subst.
  inversion Hix2 as [|k ? ix3 ? Hk Hix3]; subst.
  inversion Hix3; subst.
  rewrite Hget' by (rewrite Hsh'; repeat constructor; assumption).
  simpl. rewrite Hget by (rewrite Hsh; repeat constructor; assumption).
  reflexivity.
Qed.

(** ** Reshaping *)

Lemma filter_placeholder_count (shape : list Z) (q : nat) :
  numel (map (fun d => if (d =? -1)%Z then q else Z.to_nat d) shape) =
  q ^ length (List.filter (fun d => (d =? -1)%Z) shape) *
  numel (map Z.to_nat (List.filter (fun d => negb (d =? -1)%Z) shape)).
Proof.
  induction shape as [|d shape IH]; simpl; [reflexivity|].
  destruct (d =? -1)%Z; simpl; rewrite IH; lia.
Qed.

Lemma filter_no_placeholder (shape : list Z) :
  length (List.filter (fun d => (d =? -1)%Z) shape) = 0 ->
  List.filter (fun d => negb (d =? -1)%Z) shape = shape.
Proof.
  induction shape as [|d shape IH]; simpl; [reflexivity|].
  destruct (d =? -1)%Z; simpl; [discriminate|].
  intros E. rewrite IH by exact E. reflexivity.
Qed.

Lemma resolve_shape_numel n shape sh :
  resolve_shape n shape = Some sh ->
  numel sh = n /\ length sh = length shape.
Proof.
  unfold resolve_shape. destruct (existsb _ shape); [discriminate|].
  destruct (length (List.filter (fun d => (d =? -1)%Z) shape))
    as [|[|c]] eqn:Ec; [| |discriminate].
  - rewrite filter_no_placeholder by exact Ec.
    destruct (Nat.eqb_spec (numel (map Z.to_nat shape)) n) as [E|E];
      [|discriminate].
    intros [= <-]. rewrite length_map. auto.
  - set (known := numel (map Z.to_nat
                    (List.filter (fun d => negb (d =? -1)%Z) shape))).
    destruct (Nat.eqb_spec known 0) as [E0|E0]; [discriminate|]. simpl.
    destruct (Nat.eqb_spec (n mod known) 0) as [Em|Em]; [|discriminate].
    simpl. intros [= <-]. rewrite length_map. split; [|reflexivity].
    rewrite filter_placeholder_count, Ec. fold known.
    rewrite Nat.pow_1_r.
    rewrite (Nat.div_mod_eq n known) at 2. lia.
Qed.

Lemma resolve_shape_explicit (sh : list nat) n :
  resolve_shape n (map Z.of_nat sh) =
    if numel sh =? n then Some sh else None.
Proof.
  unfold resolve_shape.
  assert (E1 : existsb (fun d => (d <? -1)%Z) (map Z.of_nat sh) = false).
  { induction sh as [|d sh IH]; simpl; [reflexivity|].
    rewrite IH. replace (Z.of_nat d <? -1)%Z with false; [reflexivity|].
    symmetry. apply Z.ltb_ge. lia. }
  assert (E2 : List.filter (fun d => (d =? -1)%Z) (map Z.of_nat sh) = []).
  { clear E1. induction sh as [|d sh IH]; simpl; [reflexivity|].
    replace (Z.of_nat d =? -1)%Z with false; [exact IH|].
    symmetry. apply Z.eqb_neq. lia. }
  rewrite E1, E2. simpl length. cbv iota.
  rewrite filter_no_placeholder by (rewrite E2; reflexivity).
  assert (E3 : map Z.to_nat (map Z.of_nat sh) = sh).
  { rewrite map_map. rewrite (map_ext _ (fun x => x)); [apply map_id|].
    intros x. apply Nat2Z.id. }
  rewrite E3. reflexivity.
Qed.

(** X5: when [reshape] returns, the result has the sparsity, the entries in
    the same row-major order and the element count of its argument, and one
    axis per entry of the requested shape. *)
Theorem reshape_keeps_entries a shape t :
  reshape a (Some shape) = Some t ->
  is_sparse t = is_sparse a /\ values t = values a /\
  numel (int_shape t) = numel (int_shape a) /\ ndim t = length shape /\
  (wf_tensor a -> wf_tensor t).
Proof.
  rewrite reshape_unfold. unfold with_shape.
  destruct (resolve_shape _ shape) as [sh|] eqn:E; [|discriminate].
  intros [= <-]. apply resolve_shape_numel in E as (En & El).
  unfold ndim, wf_tensor. simpl. repeat split; try assumption.
  intros Wa. congruence.
Qed.

(** X6: round trip: reshaping the result of any successful [reshape] to
    the original shape gives the original tensor. *)
Theorem reshape_round_trip a shape t :
  reshape a (Some shape) = Some t ->
  reshape t (Some (map Z.of_nat (int_shape a))) = Some a.
Proof.
  rewrite !reshape_unfold. unfold with_shape.
  destruct (resolve_shape _ shape) as [sh|] eqn:E; [|discriminate].
  intros [= <-]. apply resolve_shape_numel in E as (En & _). simpl.
  rewrite resolve_shape_explicit, En, Nat.eqb_refl.
  destruct a; reflexivity.
Qed.

(** X7: for a shape given in full, [reshape] returns exactly when the
    shape has the element count of the tensor, and then only the shape
    changes; with no shape it raises. *)
Theorem reshape_explicit_shape a (sh : list nat) :
  reshape a (Some (map Z.of_nat sh)) =
    (if numel sh =? numel (int_shape a)
     then Some {| is_sparse := is_sparse a; int_shape := sh;
                  values := values a |}
     else None) /\
  reshape a None = None.
Proof.
  rewrite !reshape_unfold. unfold with_shape.
  rewrite resolve_shape_explicit.
  destruct (numel sh =? numel (int_shape a)); split; reflexivity.
Qed.
End MoreTensorProperties.

Section MoreDotProperties.
Context {F : Type} `{Scalar F}.
Implicit Types a b t fltr features : tensor F.

(** ** The transpose flag of the second operand *)

Lemma matmul_transpose_b2 (x : operand F) b ta n m t :
  int_shape b = [n; m] ->
  permute_axes (is_sparse b) b [1; 0] = Some t ->
  tfsp_matmul x (as_operand b) ta true =
  tfsp_matmul x (as_operand t) ta false.
Proof.
  intros Hb Ht.
  pose proof (permute_axes_shape _ _ _ _ Ht) as (Hsp & Hsh & _).
  rewrite Hb in Hsh. simpl in Hsh.
  unfold tfsp_matmul, wrap_product.
  rewrite !is_csr_as_operand, !op_tensor_as_operand, Hb, Hsh, Hsp.
  destruct (int_shape (op_tensor x)) as [|r [|c [|? ?]]]; try reflexivity.
  simpl. destruct (logical_dims ta r c) as [ra ia].
  destruct (Nat.eqb_spec ia m) as [->|Hne]; [|reflexivity].
  rewrite (matmul_block_ext ta true ta false c m c n 0 0 0 0
             (values (op_tensor x)) (values b)
             (values (op_tensor x)) (values t)); [reflexivity| |].
  - reflexivity.
  - intros j k Hj Hk. symmetry. eapply transposed_entry2; eassumption.
Qed.

Lemma matmul_transpose_b3 (x : operand F) b ta s n m t :
  int_shape b = [s; n; m] ->
  permute_axes (is_sparse b) b [0; 2; 1] = Some t ->
  tfsp_matmul x (as_operand b) ta true =
  tfsp_matmul x (as_operand t) ta false.
Proof.
  intros Hb Ht.
  pose proof (permute_axes_shape _ _ _ _ Ht) as (Hsp & Hsh & _).
  rewrite Hb in Hsh. simpl in Hsh.
  unfold tfsp_matmul, wrap_product.
  rewrite !is_csr_as_operand, !op_tensor_as_operand, Hb, Hsh, Hsp.
  destruct (int_shape (op_tensor x)) as [|s' [|r [|c [|? ?]]]]; try reflexivity.
  simpl. destruct (logical_dims ta r c) as [ra ia].
  destruct (Nat.eqb_spec s' s) as [->|Hne]; [|reflexivity].
  destruct (Nat.eqb_spec ia m) as [->|Hne]; [|reflexivity]. simpl.
  rewrite (flat_map_ext_seq
             (fun q => matmul_block ta true c m (q * (r * c)) (q * (n * m))
                         (values (op_tensor x)) (values b) ra m n)
             (fun q => matmul_block ta false c n (q * (r * c)) (q * (m * n))
                         (values (op_tensor x)) (values t) ra m n));
    [reflexivity|].
  intros q Hq. apply matmul_block_ext; [reflexivity|].
  intros j k Hj Hk. symmetry. eapply transposed_entry3; eassumption.
Qed.

(** X8: with [transpose_b] set, [dot] returns what it returns on the
    explicitly transposed [b] with that flag off, whatever [transpose_a] is:
    for a rank-2 [b] the transpose of the module with its default
    permutation, for a rank-3 [b] the permutation that swaps the innermost
    two axes.  With both flags set it is the product of the two transposed
    operands. *)
Theorem dot_transpose_b_flag a b ta :
  (forall n m, int_shape b = [n; m] ->
     exists b', transpose b None = Some b' /\ int_shape b' = [m; n] /\
                dot a b ta true = dot a b' ta false) /\
  (forall s n m, int_shape b = [s; n; m] ->
     exists b', transpose b (Some [0; 2; 1]) = Some b' /\
                int_shape b' = [s; m; n] /\
                dot a b ta true = dot a b' ta false) /\
  (forall n m p q, int_shape a = [n; m] -> int_shape b = [p; q] ->
     exists a' b', transpose a None = Some a' /\ transpose b None = Some b' /\
                   dot a b true true = dot a' b' false false).
Proof.
  split; [|split].
  - intros n m Hb. rewrite transpose_unfold.
    destruct (permute_axes (is_sparse b) b [1; 0]) as [t|] eqn:Ht;
      [|unfold permute_axes in Ht; rewrite Hb in Ht; discriminate].
    exists t. split; [reflexivity|].
    pose proof (permute_axes_shape _ _ _ _ Ht) as (_ & Hsh & _).
    rewrite Hb in Hsh. split; [exact Hsh|].
    rewrite !dot_unfold, (matmul_transpose_b2 _ b ta n m t Hb Ht). reflexivity.
  - intros s n m Hb. rewrite transpose_unfold.
    destruct (permute_axes (is_sparse b) b [0; 2; 1]) as [t|] eqn:Ht;
      [|unfold permute_axes in Ht; rewrite Hb in Ht; discriminate].
    exists t. split; [reflexivity|].
    pose proof (permute_axes_shape _ _ _ _ Ht) as (_ & Hsh & _).
    rewrite Hb in Hsh. split; [exact Hsh|].
    rewrite !dot_unfold, (matmul_transpose_b3 _ b ta s n m t Hb Ht). reflexivity.
  - intros n m p q Ha Hb. rewrite !transpose_unfold.
    destruct (permute_axes (is_sparse a) a [1; 0]) as [ta'|] eqn:Hta;
      [|unfold permute_axes in Hta; rewrite Ha in Hta; discriminate].
    destruct (permute_axes (is_sparse b) b [1; 0]) as [tb'|] eqn:Htb;
      [|unfold permute_axes in Htb; rewrite Hb in Htb; discriminate].
    exists ta', tb'. split; [reflexivity|]. split; [reflexivity|].
    rewrite !dot_unfold.
    rewrite (matmul_transpose_b2 _ b true p q tb' Hb Htb).
    rewrite (matmul_transpose_a2 a tb' n m ta' Ha Hta). reflexivity.
Qed.

(** ** The entries of a product *)

Lemma get2 a n m i j :
  int_shape a = [n; m] -> get a [i; j] = nth (i * m + j) (values a) fzero.
Proof. intros Ha. unfold get. rewrite Ha. simpl. f_equal. lia. Qed.

Lemma get3 a s n m q i j :
  int_shape a = [s; n; m] ->
  get a [q; i; j] = nth (q * (n * m) + (i * m + j)) (values a) fzero.
Proof. intros Ha. unfold get. rewrite Ha. simpl. f_equal. lia. Qed.

Lemma length_matmul_block ta tb ca cb ba bb (va vb : list F) rows inner cols :
  length (matmul_block ta tb ca cb ba bb va vb rows inner cols) = rows * cols.
Proof. unfold matmul_block. apply length_grid. Qed.

Lemma nth_blocks {A} (f : nat -> list A) (size count q r : nat) d :
  (forall c, length (f c) = size) -> q < count -> r < size ->
  nth (q * size + r) (flat_map f (seq 0 count)) d = nth r (f q) d.
Proof.
  intros Hlen. 
  assert (G : forall cnt s q, q < cnt -> r < size ->
            nth (q * size + r) (flat_map f (seq s cnt)) d = nth r (f (s + q)) d).
  { clear q. intros cnt. induction cnt as [|c IH]; intros s q Hq Hr; [lia|].
    simpl. destruct q as [|q].
    - rewrite app_nth1 by (rewrite Hlen; simpl; lia).
      simpl. f_equal. f_equal. lia.
    - rewrite app_nth2 by (rewrite Hlen; simpl; lia).
      rewrite Hlen. replace (S q * size + r - size) with (q * size + r) by (simpl; lia).
      rewrite IH by lia. f_equal. f_equal. lia. }
  intros Hq Hr. rewrite G by assumption. reflexivity.
Qed.

Lemma length_blocks {A} (f : nat -> list A) (size count : nat) :
  (forall c, length (f c) = size) ->
  length (flat_map f (seq 0 count)) = count * size.
Proof.
  intros Hlen. generalize 0.
  induction count as [|c IH]; intros s; simpl; [reflexivity|].
  rewrite length_app, Hlen, IH. reflexivity.
Qed.

Lemma dot_rank3 a b s n m p :
  int_shape a = [s; n; m] -> int_shape b = [s; m; p] ->
  exists out, dot a b false false = Some out /\
    int_shape out = [s; n; p] /\
    is_sparse out = is_sparse a && is_sparse b /\
    values out =
      flat_map (fun q => matmul_block false false m p (q * (n * m)) (q * (m * p))
                           (values a) (values b) n m p) (seq 0 s).
Proof.
  intros Ha Hb. rewrite dot_unfold. unfold tfsp_matmul, wrap_product.
  rewrite !op_tensor_as_operand, !is_csr_as_operand, Ha, Hb. simpl.
  rewrite !Nat.eqb_refl. simpl.
  destruct (is_sparse a && is_sparse b); eexists; repeat split; reflexivity.
Qed.

Lemma dot_entries2 a b n m p :
  int_shape a = [n; m] -> int_shape b = [m; p] ->
  exists out, dot a b false false = Some out /\
    int_shape out = [n; p] /\ wf_tensor out /\
    forall i k, i < n -> k < p ->
      get out [i; k] =
        dotsum m (fun j => fmul (get a [i; j]) (get b [j; k])).
Proof.
  intros Ha Hb.
  destruct (dot_rank2 a b n m p Ha Hb) as (out & Hout & Hsh & _ & Hv).
  exists out. split; [exact Hout|]. split; [exact Hsh|]. split.
  - unfold wf_tensor. rewrite Hv, Hsh, length_matmul_block. simpl. lia.
  - intros i k Hi Hk. rewrite (get2 out n p) by exact Hsh.
    rewrite Hv. unfold matmul_block. rewrite nth_grid by assumption.
    apply dotsum_ext. intros j Hj. unfold entry. simpl.
    rewrite (get2 a n m), (get2 b m p) by assumption. reflexivity.
Qed.

Lemma dot_entries3 a b s n m p :
  int_shape a = [s; n; m] -> int_shape b = [s; m; p] ->
  exists out, dot a b false false = Some out /\
    int_shape out = [s; n; p] /\ wf_tensor out /\
    forall q i k, q < s -> i < n -> k < p ->
      get out [q; i; k] =
        dotsum m (fun j => fmul (get a [q; i; j]) (get b [q; j; k])).
Proof.
  intros Ha Hb.
  destruct (dot_rank3 a b s n m p Ha Hb) as (out & Hout & Hsh & _ & Hv).
  exists out. split; [exact Hout|]. split; [exact Hsh|]. split.
  - unfold wf_tensor. rewrite Hv, Hsh.
    rewrite (length_blocks _ (n * p))
      by (intros c; apply length_matmul_block).
    simpl. lia.
  - intros q i k Hq Hi Hk. rewrite (get3 out s n p) by exact Hsh.
    rewrite Hv.
    rewrite (nth_blocks _ (n * p) s q (i * p + k))
      by (try (intros c; apply length_matmul_block); try assumption; nia).
    unfold matmul_block. rewrite nth_grid by assumption.
    apply dotsum_ext. intros j Hj. unfold entry.
    rewrite (get3 a s n m), (get3 b s m p) by assumption. reflexivity.
Qed.

(** X9: [dot] with both flags off is the product along the innermost two
    axes: for rank-2 operands of shapes [(n, m)] and [(m, p)] entry [(i, k)]
    of the result is the sum over [j] of [a[i,j] * b[j,k]]; for rank-3
    operands of shapes [(s, n, m)] and [(s, m, p)] the same holds within
    each batch item.  The result is well formed. *)
Theorem dot_entries a b :
  (forall n m p, int_shape a = [n; m] -> int_shape b = [m; p] ->
     exists out, dot a b false false = Some out /\
       int_shape out = [n; p] /\ wf_tensor out /\
       forall i k, i < n -> k < p ->
         get out [i; k] =
           dotsum m (fun j => fmul (get a [i; j]) (get b [j; k]))) /\
  (forall s n m p, int_shape a = [s; n; m] -> int_shape b = [s; m; p] ->
     exists out, dot a b false false = Some out /\
       int_shape out = [s; n; p] /\ wf_tensor out /\
       forall q i k, q < s -> i < n -> k < p ->
         get out [q; i; k] =
           dotsum m (fun j => fmul (get a [q; i; j]) (get b [q; j; k]))).
Proof.
  split.
  - intros n m p. apply dot_entries2.
  - intros s n m p. apply dot_entries3.
Qed.

(** X10: for rank-2 operands [dot] returns exactly when the inner extents
    agree once the transpose flags are applied, and the result then has the
    outer extents; a mismatch raises. *)
Theorem dot_inner_extents a b ta tb n m p q :
  int_shape a = [n; m] -> int_shape b = [p; q] ->
  (snd (logical_dims ta n m) = fst (logical_dims tb p q) ->
   exists out, dot a b ta tb = Some out /\
     int_shape out = [fst (logical_dims ta n m); snd (logical_dims tb p q)] /\
     wf_tensor out) /\
  (snd (logical_dims ta n m) <> fst (logical_dims tb p q) ->
   dot a b ta tb = None).
Proof.
  intros Ha Hb. rewrite dot_unfold. unfold tfsp_matmul, wrap_product.
  rewrite !op_tensor_as_operand, !is_csr_as_operand, Ha, Hb.
  destruct (logical_dims ta n m) as [ra ia], (logical_dims tb p q) as [ib cb].
  simpl. split.
  - intros ->. rewrite Nat.eqb_refl.
    destruct (is_sparse a && is_sparse b); eexists;
      (split; [reflexivity|]); (split; [reflexivity|]);
      unfold wf_tensor; simpl; rewrite length_matmul_block; lia.
  - intros Hne. apply Nat.eqb_neq in Hne. rewrite Hne. reflexivity.
Qed.
End MoreDotProperties.

Section MoreFilterDotProperties.
Context {F : Type} `{Scalar F}.
Implicit Types a b t fltr features : tensor F.

(** ** The mixed-mode product outside its contract *)

Lemma mixed_mode_dot_rank a b : ndim b <> 3 -> mixed_mode_dot a b = None.
Proof.
  unfold mixed_mode_dot, ndim.
  destruct (int_shape b) as [|s0 [|s1 [|s2 [|? ?]]]]; simpl; try reflexivity.
  congruence.
Qed.

(** X11: [filter_dot] raises for every pair whose features are not rank 3,
    except a rank-2 filter with rank-2 features: the mixed-mode path unpacks
    the shape of the features into three extents.  In particular it raises
    on every inverted-mixed pair (rank-3 filter, rank-2 features). *)
Theorem filter_dot_needs_rank3_features fltr features :
  ndim features <> 3 ->
  (ndim fltr <> 2 \/ ndim features <> 2) ->
  filter_dot fltr features = None.
Proof.
  intros H3 H22. unfold filter_dot. rewrite autodetect_mode_ranks.
  destruct (ndim fltr) as [|[|[|[|ra]]]] eqn:Ea,
           (ndim features) as [|[|[|[|rb]]]] eqn:Eb;
    simpl; try (apply mixed_mode_dot_rank; rewrite Eb; lia);
    lia.
Qed.

Lemma resolve_shape_last3_any s1 s2 n :
  0 < s1 -> 0 < s2 ->
  resolve_shape n [Z.of_nat s1; Z.of_nat s2; (-1)%Z] =
    if n mod (s1 * s2) =? 0 then Some [s1; s2; n / (s1 * s2)] else None.
Proof.
  intros H1 H2. unfold resolve_shape.
  assert (E1 : (Z.of_nat s1 =? -1)%Z = false) by (apply Z.eqb_neq; lia).
  assert (E2 : (Z.of_nat s1 <? -1)%Z = false) by (apply Z.ltb_ge; lia).
  assert (E3 : (Z.of_nat s2 =? -1)%Z = false) by (apply Z.eqb_neq; lia).
  assert (E4 : (Z.of_nat s2 <? -1)%Z = false) by (apply Z.ltb_ge; lia).
  simpl. rewrite E1, E2, E3, E4. simpl. rewrite !Nat2Z.id, Nat.mul_1_r.
  replace (s1 * s2 =? 0) with false by (symmetry; apply Nat.eqb_neq; nia).
  simpl. destruct (n mod (s1 * s2) =? 0); reflexivity.
Qed.

(** X12: [mixed_mode_dot] does not check that [a] is square.  For [a] of
    shape [(r, c)] and [b] of shape [(s0, s1, s2)] with non-empty node and
    feature axes, it raises when [c] differs from [s1] or when [s1] does not
    divide [r * s0]; otherwise it returns a tensor of shape
    [(r * s0 / s1, s1, s2)], which is the shape of [b] only when [r = s1]
    or the batch is empty. *)
Theorem mixed_mode_dot_unchecked_rows a b r c s0 s1 s2 :
  int_shape a = [r; c] -> int_shape b = [s0; s1; s2] ->
  0 < s1 -> 0 < s2 ->
  (c <> s1 -> mixed_mode_dot a b = None) /\
  (c = s1 -> (r * s0) mod s1 <> 0 -> mixed_mode_dot a b = None) /\
  (c = s1 -> (r * s0) mod s1 = 0 ->
   exists out, mixed_mode_dot a b = Some out /\
     int_shape out = [r * s0 / s1; s1; s2] /\ wf_tensor out).
Proof.
  intros Ha Hb H1 H2. unfold mixed_mode_dot. rewrite Hb.
  rewrite transpose_unfold.
  destruct (permute_axes (is_sparse b) b [1; 2; 0]) as [BT|] eqn:HBT;
    [|unfold permute_axes in HBT; rewrite Hb in HBT; discriminate].
  pose proof (permute_axes_shape _ _ _ _ HBT) as (SBT & ShBT & _).
  rewrite Hb in ShBT. simpl in ShBT.
  rewrite reshape_unfold. unfold with_shape. rewrite ShBT.
  replace (numel [s1; s2; s0]) with (s1 * (s2 * s0)) by (simpl; lia).
  rewrite resolve_shape_last2 by exact H1.
  set (BT2 := {| is_sparse := is_sparse BT; int_shape := [s1; s2 * s0];
                 values := values BT |}).
  assert (Hmod : (r * (s2 * s0)) mod (s1 * s2) = (r * s0) mod s1 * s2).
  { replace (r * (s2 * s0)) with ((r * s0) * s2) by lia.
    apply Nat.Div0.mul_mod_distr_r. }
  assert (Hdiv : (r * (s2 * s0)) / (s1 * s2) = r * s0 / s1).
  { replace (r * (s2 * s0)) with ((r * s0) * s2) by lia.
    apply Nat.Div0.div_mul_cancel_r. lia. }
  split; [|split].
  - intros Hc. rewrite dot_unfold. unfold tfsp_matmul.
    rewrite !op_tensor_as_operand, Ha. simpl.
    apply Nat.eqb_neq in Hc. rewrite Hc. reflexivity.
  - intros -> Hm.
    destruct (dot_rank2 a BT2 r s1 (s2 * s0) Ha eq_refl)
      as (P & HP & ShP & _ & _).
    rewrite HP. rewrite reshape_unfold. unfold with_shape. rewrite ShP.
    replace (numel [r; s2 * s0]) with (r * (s2 * s0)) by (simpl; lia).
    rewrite resolve_shape_last3_any, Hmod by assumption.
    replace ((r * s0) mod s1 * s2 =? 0) with false; [reflexivity|].
    symmetry. apply Nat.eqb_neq. nia.
  - intros -> Hm.
    destruct (dot_rank2 a BT2 r s1 (s2 * s0) Ha eq_refl)
      as (P & HP & ShP & _ & _).
    rewrite HP. rewrite reshape_unfold. unfold with_shape. rewrite ShP.
    replace (numel [r; s2 * s0]) with (r * (s2 * s0)) by (simpl; lia).
    rewrite resolve_shape_last3_any, Hmod, Hm, Hdiv by assumption.
    simpl Nat.eqb. cbv iota.
    rewrite transpose_unfold.
    match goal with
    | |- context [permute_axes ?sp ?P2 [2; 0; 1]] =>
        destruct (permute_axes sp P2 [2; 0; 1]) as [out|] eqn:Hout;
          [|unfold permute_axes in Hout; discriminate]
    end.
    pose proof (permute_axes_shape _ _ _ _ Hout) as (_ & Shout & Wout).
    simpl in Shout.
    exists out. auto.
Qed.

(** X13: [mixed_mode_dot] returns a sparse tensor exactly when both the
    filter and the features are sparse; with a dense operand on either side
    the result is dense.  The result is well formed. *)
Theorem mixed_mode_dot_sparse_iff_both_sparse a b s0 s1 s2 :
  int_shape a = [s1; s1] -> int_shape b = [s0; s1; s2] ->
  0 < s1 -> 0 < s2 ->
  exists out, mixed_mode_dot a b = Some out /\
    is_sparse out = is_sparse a && is_sparse b /\ wf_tensor out.
Proof.
  intros Ha Hb H1 H2.
  destruct (mixed_mode_dot_entries a b s0 s1 s2 Ha Hb H1 H2)
    as (out & Hout & _ & Hsp & Wf & _).
  exists out. auto.
Qed.

(** X14: [filter_dot] applies the filter to the features: entry [(i, k)] of
    the result, within batch item [q] where there is one, is the sum over
    [j] of the filter entry [(i, j)] times the feature entry [(j, k)].  This
    holds for a rank-2 filter on rank-2 features, for a rank-2 square filter
    shared by every item of rank-3 features with non-empty node and feature
    axes, and for a rank-3 filter on rank-3 features of the same batch
    size. *)
Theorem filter_dot_applies_filter fltr features :
  (forall n m p, int_shape fltr = [n; m] -> int_shape features = [m; p] ->
     exists out, filter_dot fltr features = Some out /\
       int_shape out = [n; p] /\
       forall i k, i < n -> k < p ->
         get out [i; k] =
           dotsum m (fun j => fmul (get fltr [i; j]) (get features [j; k]))) /\
  (forall s n p, int_shape fltr = [n; n] -> int_shape features = [s; n; p] ->
     0 < n -> 0 < p ->
     exists out, filter_dot fltr features = Some out /\
       int_shape out = [s; n; p] /\
       forall q i k, q < s -> i < n -> k < p ->
         get out [q; i; k] =
           dotsum n (fun j => fmul (get fltr [i; j])
                                   (get features [q; j; k]))) /\
  (forall s n m p, int_shape fltr = [s; n; m] ->
     int_shape features = [s; m; p] ->
     exists out, filter_dot fltr features = Some out /\
       int_shape out = [s; n; p] /\
       forall q i k, q < s -> i < n -> k < p ->
         get out [q; i; k] =
           dotsum m (fun j => fmul (get fltr [q; i; j])
                                   (get features [q; j; k]))).
Proof.
  split; [|split].
  - intros n m p Hf Hx.
    destruct (dot_entries2 fltr features n m p Hf Hx)
      as (out & Hout & Hsh & _ & Hget).
    exists out. split; [|auto].
    unfold filter_dot. rewrite autodetect_mode_ranks. unfold ndim.
    rewrite Hf, Hx. exact Hout.
  - intros s n p Hf Hx Hn Hp.
    destruct (mixed_mode_dot_entries fltr features s n p Hf Hx Hn Hp)
      as (out & Hout & Hsh & _ & _ & Hget).
    exists out. split; [|auto].
    unfold filter_dot. rewrite autodetect_mode_ranks. unfold ndim.
    rewrite Hf, Hx. exact Hout.
  - intros s n m p Hf Hx.
    destruct (dot_entries3 fltr features s n m p Hf Hx)
      as (out & Hout & Hsh & _ & Hget).
    exists out. split; [|auto].
    unfold filter_dot. rewrite autodetect_mode_ranks. unfold ndim.
    rewrite Hf, Hx. exact Hout.
Qed.

End MoreFilterDotProperties.

(** * Further properties of the normalisation and the filter *)

Section MoreArrayProperties.
Context {F : Type} `{Scalar F}.
Implicit Types A X Y : matrix F.

(** ** When the normalisation is defined *)

(** X15: the random-walk form [D^-1 A] is defined for every rank-2 [A];
    the symmetric form raises exactly when [A] is not square, at the second
    product. *)
Theorem normalized_adjacency_defined A :
  (exists R, normalized_adjacency A false = Some R /\
             m_nrows R = m_nrows A /\ m_cols R = m_cols A) /\
  (normalized_adjacency A true = None <-> m_cols A <> m_nrows A).
Proof.
  rewrite !normalized_adjacency_unfold. unfold matrix_dot.
  pose proof (degree_matrix_shape A fneg_one) as (_ & _ & Hr1 & Hc1 & _).
  pose proof (degree_matrix_shape A fneg_half) as (_ & _ & Hr2 & Hc2 & _).
  rewrite Hc1, Hc2, Hr2, !Nat.eqb_refl. simpl. split.
  - eexists. split; [reflexivity|]. unfold m_nrows. simpl.
    rewrite length_build. auto.
  - destruct (Nat.eqb_spec (m_cols A) (m_nrows A)) as [E|E]; split;
      try congruence; try discriminate.
Qed.

(** ** The entries of the normalised matrix *)

Lemma dotsum_single n i (f : nat -> F) :
  (forall x : F, fadd fzero x = x) -> (forall x : F, fadd x fzero = x) ->
  (forall j, j < n -> j <> i -> f j = fzero) -> i < n ->
  dotsum n f = f i.
Proof.
  intros A0l A0r Hz Hi. unfold dotsum.
  assert (G : forall len s acc, s + len <= n ->
             fold_left (fun acc j => fadd acc (f j)) (seq s len) acc
             = if (s <=? i) && (i <? s + len) then fadd acc (f i) else acc).
  { induction len as [|len IH]; intros s acc Hs; simpl.
    - replace ((s <=? i) && (i <? s + 0)) with false; [reflexivity|].
      symmetry. apply andb_false_iff.
      destruct (Nat.leb_spec s i);
        [right; apply Nat.ltb_ge; lia | left; reflexivity].
    - rewrite IH by lia. destruct (Nat.eq_dec s i) as [->|Hne].
      + replace ((S i <=? i) && (i <? S i + len)) with false
          by (symmetry; apply andb_false_iff; left; apply Nat.leb_gt; lia).
        replace ((i <=? i) && (i <? i + S len)) with true; [reflexivity|].
        symmetry. apply andb_true_iff.
        split; [apply Nat.leb_le | apply Nat.ltb_lt]; lia.
      + rewrite (Hz s) by lia. rewrite A0r.
        replace ((S s <=? i) && (i <? S s + len))
          with ((s <=? i) && (i <? s + S len)); [reflexivity|].
        destruct (Nat.leb_spec s i), (Nat.leb_spec (S s) i),
          (Nat.ltb_spec i (s + S len)), (Nat.ltb_spec i (S s + len));
          simpl; try reflexivity; lia. }
  rewrite G by lia. simpl.
  replace (i <? n) with true by (symmetry; apply Nat.ltb_lt; exact Hi).
  apply A0l.
Qed.

Lemma degree_matrix_entry A k i j :
  i < m_nrows A -> j < m_nrows A ->
  at_ (m_rows (degree_matrix A k)) i j =
    if i =? j then at_ (m_rows (degree_matrix A k)) i i else fzero.
Proof.
  intros Hi Hj. rewrite degree_matrix_unfold. unfold diag. simpl.
  assert (L : length (map clamp (map (fun d => fpower d k) (sum1 A)))
              = m_nrows A)
    by (unfold sum1, m_nrows; rewrite !length_map; reflexivity).
  rewrite L, !at_build by assumption. rewrite Nat.eqb_refl. reflexivity.
Qed.


Lemma diag_times A D n i j :
  (forall x : F, fadd fzero x = x) -> (forall x : F, fadd x fzero = x) ->
  (forall x : F, fmul fzero x = fzero) ->
  m_nrows A = n -> m_nrows D = n -> m_cols D = n ->
  (forall i j, i < n -> j < n ->
     at_ (m_rows D) i j = if i =? j then at_ (m_rows D) i i else fzero) ->
  forall P, matrix_dot D A = Some P -> i < n -> j < m_cols A ->
  at_ (m_rows P) i j = fmul (at_ (m_rows D) i i) (at_ (m_rows A) i j).
Proof.
  intros A0l A0r M0l HrA HrD HcD Hd P HP Hi Hj.
  unfold matrix_dot in HP. rewrite HcD, HrA, Nat.eqb_refl in HP.
  injection HP as <-. simpl. rewrite HrD, at_build by assumption.
  rewrite (dotsum_single n i) by
    (try assumption; intros j' Hj' Hne; rewrite Hd by assumption;
     replace (i =? j') with false by (symmetry; apply Nat.eqb_neq; lia);
     apply M0l).
  reflexivity.
Qed.

Lemma times_diag A D n i j :
  (forall x : F, fadd fzero x = x) -> (forall x : F, fadd x fzero = x) ->
  (forall x : F, fmul x fzero = fzero) ->
  m_cols A = n -> m_nrows D = n -> m_cols D = n ->
  (forall i j, i < n -> j < n ->
     at_ (m_rows D) i j = if i =? j then at_ (m_rows D) i i else fzero) ->
  forall P, matrix_dot A D = Some P -> i < m_nrows A -> j < n ->
  at_ (m_rows P) i j = fmul (at_ (m_rows A) i j) (at_ (m_rows D) j j).
Proof.
  intros A0l A0r M0r HcA HrD HcD Hd P HP Hi Hj.
  unfold matrix_dot in HP. rewrite HcA, HrD, Nat.eqb_refl in HP.
  injection HP as <-. simpl. rewrite HcD, at_build by assumption.
  rewrite (dotsum_single n j) by
    (try assumption; intros j' Hj' Hne; rewrite Hd by assumption;
     replace (j' =? j) with false by (symmetry; apply Nat.eqb_neq; lia);
     apply M0r).
  rewrite (Hd j j) by assumption. rewrite Nat.eqb_refl. reflexivity.
Qed.

Lemma normalized_adjacency_entries_sym A n :
  (forall x : F, fadd fzero x = x) -> (forall x : F, fadd x fzero = x) ->
  (forall x : F, fmul fzero x = fzero) -> (forall x : F, fmul x fzero = fzero) ->
  square n A ->
  exists S, normalized_adjacency A true = Some S /\ square n S /\
    forall i j, i < n -> j < n ->
      at_ (m_rows S) i j =
        fmul (fmul (at_ (m_rows (degree_matrix A fneg_half)) i i)
                   (at_ (m_rows A) i j))
             (at_ (m_rows (degree_matrix A fneg_half)) j j).
Proof.
  intros A0l A0r M0l M0r HA. pose proof HA as (Hr & Hc & _).
  pose proof (degree_matrix_square A fneg_half n Hr) as HD.
  pose proof HD as (HrD & HcD & _).
  assert (Hd : forall i j, i < n -> j < n ->
            at_ (m_rows (degree_matrix A fneg_half)) i j =
            if i =? j then at_ (m_rows (degree_matrix A fneg_half)) i i
            else fzero)
    by (intros i j Hi Hj; apply degree_matrix_entry; rewrite Hr; assumption).
  rewrite normalized_adjacency_unfold.
  destruct (matrix_dot_square _ _ n HD HA) as (T & HT & HsqT & _).
  rewrite HT.
  destruct (matrix_dot_square _ _ n HsqT HD) as (S & HS & HsqS & _).
  rewrite HS. exists S. split; [reflexivity|]. split; [exact HsqS|].
  intros i j Hi Hj. pose proof HsqT as (HrT & HcT & _).
  rewrite (times_diag T _ n i j A0l A0r M0r HcT HrD HcD Hd S HS)
    by (rewrite ?HrT; assumption).
  rewrite (diag_times A _ n i j A0l A0r M0l Hr HrD HcD Hd T HT)
    by (rewrite ?Hc; assumption).
  reflexivity.
Qed.

Lemma normalized_adjacency_entries_rw A n :
  (forall x : F, fadd fzero x = x) -> (forall x : F, fadd x fzero = x) ->
  (forall x : F, fmul fzero x = fzero) ->
  square n A ->
  exists R, normalized_adjacency A false = Some R /\ square n R /\
    forall i j, i < n -> j < n ->
      at_ (m_rows R) i j =
        fmul (at_ (m_rows (degree_matrix A fneg_one)) i i) (at_ (m_rows A) i j).
Proof.
  intros A0l A0r M0l HA. pose proof HA as (Hr & Hc & _).
  pose proof (degree_matrix_square A fneg_one n Hr) as HD.
  pose proof HD as (HrD & HcD & _).
  assert (Hd : forall i j, i < n -> j < n ->
            at_ (m_rows (degree_matrix A fneg_one)) i j =
            if i =? j then at_ (m_rows (degree_matrix A fneg_one)) i i
            else fzero)
    by (intros i j Hi Hj; apply degree_matrix_entry; rewrite Hr; assumption).
  rewrite normalized_adjacency_unfold.
  destruct (matrix_dot_square _ _ n HD HA) as (R & HR & HsqR & _).
  rewrite HR. exists R. split; [reflexivity|]. split; [exact HsqR|].
  intros i j Hi Hj.
  apply (diag_times A _ n i j A0l A0r M0l Hr HrD HcD Hd R HR);
    rewrite ?Hc; assumption.
Qed.

(** X16: for a square [A], where adding zero and multiplying by zero behave
    as in exact arithmetic, entry [(i, j)] of the symmetric normalisation is
    [d i * A[i,j] * d j] and entry [(i, j)] of the random-walk one is
    [e i * A[i,j]], with [d] and [e] the diagonals of [degree_power A (-0.5)]
    and [degree_power A (-1)]. *)
Theorem normalized_adjacency_entries A n :
  (forall x : F, fadd fzero x = x) -> (forall x : F, fadd x fzero = x) ->
  (forall x : F, fmul fzero x = fzero) -> (forall x : F, fmul x fzero = fzero) ->
  square n A ->
  exists Dh Do S R,
    degree_power A (FloatExp fneg_half) = Some Dh /\
    degree_power A (FloatExp fneg_one) = Some Do /\
    normalized_adjacency A true = Some S /\
    normalized_adjacency A false = Some R /\
    forall i j, i < n -> j < n ->
      at_ (m_rows S) i j =
        fmul (fmul (at_ (m_rows Dh) i i) (at_ (m_rows A) i j))
             (at_ (m_rows Dh) j j) /\
      at_ (m_rows R) i j =
        fmul (at_ (m_rows Do) i i) (at_ (m_rows A) i j).
Proof.
  intros A0l A0r M0l M0r HA.
  destruct (normalized_adjacency_entries_sym A n A0l A0r M0l M0r HA)
    as (S & HS & _ & HgS).
  destruct (normalized_adjacency_entries_rw A n A0l A0r M0l HA)
    as (R & HR & _ & HgR).
  exists (degree_matrix A fneg_half), (degree_matrix A fneg_one), S, R.
  split; [apply degree_power_float|]. split; [apply degree_power_float|].
  split; [exact HS|]. split; [exact HR|].
  intros i j Hi Hj. split; [apply HgS | apply HgR]; assumption.
Qed.


(** X18: the symmetric normalisation keeps symmetry.  For a square
    symmetric [A], under the same laws of zero and with a commutative and
    associative multiplication, the result is symmetric. *)
Theorem normalized_adjacency_symmetric A n :
  (forall x : F, fadd fzero x = x) -> (forall x : F, fadd x fzero = x) ->
  (forall x : F, fmul fzero x = fzero) -> (forall x : F, fmul x fzero = fzero) ->
  (forall x y : F, fmul x y = fmul y x) ->
  (forall x y z : F, fmul (fmul x y) z = fmul x (fmul y z)) ->
  square n A ->
  (forall i j, i < n -> j < n -> at_ (m_rows A) i j = at_ (m_rows A) j i) ->
  exists S, normalized_adjacency A true = Some S /\
    forall i j, i < n -> j < n -> at_ (m_rows S) i j = at_ (m_rows S) j i.
Proof.
  intros A0l A0r M0l M0r Mc Ma HA Hsym.
  destruct (normalized_adjacency_entries_sym A n A0l A0r M0l M0r HA)
    as (S & HS & _ & Hg).
  exists S. split; [exact HS|]. intros i j Hi Hj.
  rewrite !Hg by assumption. rewrite (Hsym i j) by assumption.
  rewrite Ma, (Mc _ (fmul _ _)), (Mc (at_ (m_rows A) j i)). reflexivity.
Qed.

End MoreArrayProperties.

Section MoreStoreProperties.
Context {F : Type} `{Scalar F}.
Implicit Types h : heap F.

(** ** What the filter returns *)

(** X19: on a square rank-2 [A] of any element type the result is a new
    rank-2 object of the same extents and storage class as [A] and of
    floating element type; the call adds four objects to the store. *)
Theorem localpooling_filter_result_type h A mA symmetric n :
  h !! A = Some (Rank2 mA) -> square n mA ->
  exists r h' fl,
    localpooling_filter A symmetric h = (Some r, h') /\
    length h <= r /\ length h' = length h + 4 /\
    h' !! r = Some (Rank2 fl) /\
    square n fl /\ m_sparse fl = m_sparse mA /\ m_dtype fl = Float64.
Proof.
  intros HA Hsq.
  destruct (matrix_add_eye mA n Hsq) as (At & Hadd & HsqAt & HspAt & _).
  destruct (normalized_adjacency_square At n symmetric HsqAt)
    as (fl & Hnorm & Hsqfl & Hsp & Hd).
  pose proof Hsq as (_ & Hc & _).
  exists (length h + 3). eexists. exists fl.
  split; [apply (localpooling_filter_rank2 h A mA symmetric At fl HA);
          [rewrite Hc; exact Hadd | exact Hnorm]|].
  split; [lia|]. split; [rewrite length_app; simpl; lia|].
  split; [|split; [exact Hsqfl | split; [congruence | exact Hd]]].
  rewrite lookup_app_r by lia.
  replace (length h + 3 - length h) with 3 by lia. reflexivity.
Qed.

(** X20: the batched call on square slices returns a new rank-3 object of
    the extents and element type of [A]; slice [i] holds the rows of the
    filter of slice [i] converted to that element type: as they are for a
    floating-point batch, through the conversion to integer for an integer
    batch. *)
Theorem localpooling_filter_batch_stores_converted h A d n slices symmetric :
  h !! A = Some (Rank3 d n n slices) ->
  Forall (fun s => square n (slice_matrix d n s)) slices ->
  exists out h',
    localpooling_filter A symmetric h = (Some (length h), h') /\
    h' !! length h = Some (Rank3 d n n out) /\
    length out = length slices /\
    forall i s, slices !! i = Some s ->
      exists At fl,
        matrix_add (slice_matrix d n s) (np_eye n d) = Some At /\
        normalized_adjacency At symmetric = Some fl /\
        out !! i = Some (match d with
                         | Int64 => map (map fto_int) (m_rows fl)
                         | Float64 => m_rows fl
                         end).
Proof.
  intros HA Hall.
  destruct (localpooling_filter_batch h A d n slices symmetric HA Hall)
    as (out & h' & Hrun & Hres & Hlen & Hin).
  exists out, h'. split; [exact Hrun|]. split; [exact Hres|].
  split; [exact Hlen|].
  intros i s Hs. destruct (Hin i s Hs) as (fl & Hfl & Hout).
  assert (Hsq : square n (slice_matrix d n s)).
  { rewrite List.Forall_forall in Hall. apply Hall.
    apply list_elem_of_In. eapply list_elem_of_lookup_2. exact Hs. }
  destruct (slice_filter_square d n symmetric s Hsq) as (fl' & Hfl' & _ & Hd).
  rewrite Hfl in Hfl'. injection Hfl' as <-.
  unfold slice_filter in Hfl.
  destruct (matrix_add _ _) as [At|] eqn:Hadd; [|discriminate].
  exists At, fl. split; [reflexivity|]. split; [exact Hfl|].
  rewrite Hout. f_equal.
  destruct d; [apply stored_rows_int; exact Hd | apply stored_rows_float].
Qed.

(** ** Arguments that are not square *)

Lemma localpooling_filter_add_raises h A mA symmetric :
  h !! A = Some (Rank2 mA) ->
  matrix_add mA (eye (m_sparse mA) (m_cols mA) (m_dtype mA)) = None ->
  localpooling_filter A symmetric h =
    (None, h ++ [Rank2 mA; Rank2 (eye (m_sparse mA) (m_cols mA) (m_dtype mA))]).
Proof.
  intros HA Hadd.
  assert (HlA : A < length h) by (apply lookup_lt_Some in HA; exact HA).
  unfold localpooling_filter.
  rewrite (bind_ok _ _ _ _ _ (load_ok _ _ _ HA)).
  rewrite (bind_ok _ _ _ _ _ (copy_ok _ _ _ HA)).
  rewrite (bind_ok _ _ _ (length (h ++ [Rank2 mA]))
             ((h ++ [Rank2 mA]) ++
              [Rank2 (eye (m_sparse mA) (m_cols mA) (m_dtype mA))]))
    by (unfold alloc; simpl; destruct (m_sparse mA); reflexivity).
  simpl ndarray_ndim. simpl Nat.eqb. cbv iota.
  erewrite bind_raise; cycle 1.
  { erewrite bind_raise; [reflexivity|].
    unfold add_.
    erewrite bind_ok; cycle 1.
    { apply load_matrix_ok.
      rewrite !lookup_app_l by (rewrite ?length_app; simpl; lia). exact HA. }
    erewrite bind_ok; cycle 1.
    { apply load_matrix_ok. apply list_lookup_middle. reflexivity. }
    rewrite Hadd. reflexivity. }
  rewrite <- app_assoc. reflexivity.
Qed.

(** X21: a rank-2 argument that is not square makes the call raise at
    [A + I], for either flag, when [A] is sparse, or dense with more than
    one row and more than one column; the store has then gained only the
    copy of [A] and the identity. *)
Theorem localpooling_filter_not_square_raises h A mA symmetric :
  h !! A = Some (Rank2 mA) ->
  m_nrows mA <> m_cols mA ->
  m_sparse mA = true \/ (m_nrows mA <> 1 /\ m_cols mA <> 1) ->
  localpooling_filter A symmetric h =
    (None, h ++ [Rank2 mA; Rank2 (eye (m_sparse mA) (m_cols mA) (m_dtype mA))]).
Proof.
  intros HA Hne Hcase. apply localpooling_filter_add_raises; [exact HA|].
  unfold matrix_add, eye, m_nrows in *. simpl. rewrite length_build.
  apply Nat.eqb_neq in Hne.
  destruct Hcase as [Hsp | (Hr1 & Hc1)].
  - rewrite Hsp. simpl. rewrite Hne. reflexivity.
  - destruct (m_sparse mA); simpl; [rewrite Hne; reflexivity|].
    unfold bdim. rewrite Hne.
    apply Nat.eqb_neq in Hr1, Hc1. rewrite Hr1, Hc1. reflexivity.
Qed.

(** X22: a dense argument with a single row is not rejected: the row is
    broadcast against the identity, and for [m] columns, [m] not 1, the call
    returns an [m] by [m] matrix. *)
Theorem localpooling_filter_broadcasts_row h A mA symmetric m :
  h !! A = Some (Rank2 mA) ->
  m_sparse mA = false -> m_nrows mA = 1 -> m_cols mA = m -> m <> 1 ->
  exists r h' fl,
    localpooling_filter A symmetric h = (Some r, h') /\
    h' !! r = Some (Rank2 fl) /\ square m fl.
Proof.
  intros HA Hsp Hr Hc Hm.
  assert (Hadd : exists At,
            matrix_add mA (eye (m_sparse mA) (m_cols mA) (m_dtype mA))
              = Some At /\ square m At).
  { unfold matrix_add, eye, m_nrows in *. simpl.
    rewrite length_build, Hsp, Hr, Hc. simpl.
    unfold bdim. simpl.
    destruct m as [|[|m']]; try congruence; simpl.
    - eexists. split; [reflexivity|].
      unfold square, m_nrows, wf_matrix. simpl. repeat split. constructor.
    - rewrite Nat.eqb_refl.
      eexists. split; [reflexivity|].
      unfold square, m_nrows, wf_matrix. cbn [m_rows m_cols].
      rewrite length_build. repeat split. apply wf_build. }
  destruct Hadd as (At & Hadd & HsqAt).
  destruct (normalized_adjacency_square At m symmetric HsqAt)
    as (fl & Hnorm & Hsqfl & _).
  exists (length h + 3). eexists. exists fl.
  split; [apply (localpooling_filter_rank2 h A mA symmetric At fl HA Hadd Hnorm)|].
  split; [|exact Hsqfl].
  rewrite lookup_app_r by lia.
  replace (length h + 3 - length h) with 3 by lia. reflexivity.
Qed.

End MoreStoreProperties.

(** * The further properties on the engines *)

(** ** Laws of the extended reals *)






(** ** Tensors on binary64 *)

(** X3 on a sparse 2x3 tensor. *)
Lemma transpose_involutive_example :
  exists t,
    transpose (mkTensor true [2; 3] [1; 2; 3; 4; 5; 6]%float) None = Some t /\
    transpose t None = Some (mkTensor true [2; 3] [1; 2; 3; 4; 5; 6]%float).
Proof.
  exact (transpose_involutive (F:=float)
           (mkTensor true [2; 3] [1; 2; 3; 4; 5; 6]%float) 2 3 eq_refl eq_refl).
Defined.

(** X4 on a 2x2x2 tensor. *)
Lemma transpose_batch_last_and_back_example :
  exists t,
    transpose (mkTensor false [2; 2; 2] [1; 2; 3; 4; 5; 6; 7; 8]%float)
      (Some [1; 2; 0]) = Some t /\
    int_shape t = [2; 2; 2] /\
    transpose t (Some [2; 0; 1])
      = Some (mkTensor false [2; 2; 2] [1; 2; 3; 4; 5; 6; 7; 8]%float).
Proof.
  exact (transpose_batch_last_and_back (F:=float)
           (mkTensor false [2; 2; 2] [1; 2; 3; 4; 5; 6; 7; 8]%float)
           2 2 2 eq_refl eq_refl).
Defined.

(** X5 on a 2x3 tensor reshaped with a placeholder. *)
Lemma reshape_keeps_entries_example :
  is_sparse (mkTensor true [3; 2] [1; 2; 3; 4; 5; 6]%float) = true /\
  values (mkTensor true [3; 2] [1; 2; 3; 4; 5; 6]%float)
    = [1; 2; 3; 4; 5; 6]%float /\
  numel [3; 2] = numel [2; 3] /\
  ndim (mkTensor true [3; 2] [1; 2; 3; 4; 5; 6]%float) = 2 /\
  (wf_tensor (mkTensor true [2; 3] [1; 2; 3; 4; 5; 6]%float) ->
   wf_tensor (mkTensor true [3; 2] [1; 2; 3; 4; 5; 6]%float)).
Proof.
  exact (reshape_keeps_entries (F:=float)
           (mkTensor true [2; 3] [1; 2; 3; 4; 5; 6]%float)
           [3%Z; (-1)%Z]
           (mkTensor true [3; 2] [1; 2; 3; 4; 5; 6]%float) eq_refl).
Defined.

(** X6 on the same tensor. *)
Lemma reshape_round_trip_example :
  reshape (mkTensor true [3; 2] [1; 2; 3; 4; 5; 6]%float)
    (Some [2%Z; 3%Z])
  = Some (mkTensor true [2; 3] [1; 2; 3; 4; 5; 6]%float).
Proof.
  exact (reshape_round_trip (F:=float)
           (mkTensor true [2; 3] [1; 2; 3; 4; 5; 6]%float)
           [3%Z; (-1)%Z]
           (mkTensor true [3; 2] [1; 2; 3; 4; 5; 6]%float) eq_refl).
Defined.

(** X10 on a 2x3 and a 3x2 tensor, and on the 2x3 tensor with itself. *)
Lemma dot_inner_extents_example :
  (exists out,
     dot (mkTensor false [2; 3] [1; 2; 3; 4; 5; 6]%float)
         (mkTensor false [3; 2] [1; 0; 0; 1; 1; 1]%float) false false
       = Some out /\
     int_shape out = [2; 2] /\ wf_tensor out) /\
  dot (mkTensor false [2; 3] [1; 2; 3; 4; 5; 6]%float)
      (mkTensor false [2; 3] [1; 2; 3; 4; 5; 6]%float) false false = None.
Proof.
  split.
  - destruct (dot_inner_extents (F:=float)
                (mkTensor false [2; 3] [1; 2; 3; 4; 5; 6]%float)
                (mkTensor false [3; 2] [1; 0; 0; 1; 1; 1]%float)
                false false 2 3 3 2 eq_refl eq_refl) as (Hok & _).
    apply Hok. reflexivity.
  - destruct (dot_inner_extents (F:=float)
                (mkTensor false [2; 3] [1; 2; 3; 4; 5; 6]%float)
                (mkTensor false [2; 3] [1; 2; 3; 4; 5; 6]%float)
                false false 2 3 2 3 eq_refl eq_refl) as (_ & Hbad).
    apply Hbad. simpl. lia.
Defined.

(** X11 on an inverted-mixed pair. *)
Lemma filter_dot_needs_rank3_features_example :
  filter_dot (mkTensor false [1; 2; 2] [1; 0; 0; 1]%float)
             (mkTensor false [2; 2] [1; 2; 3; 4]%float) = None.
Proof.
  apply (filter_dot_needs_rank3_features (F:=float));
    unfold ndim; simpl; lia.
Defined.

(** X12 on a 4x2 filter and a batch of one 2x1 feature matrix: the call
    returns a batch of two. *)
Lemma mixed_mode_dot_unchecked_rows_example :
  exists out,
    mixed_mode_dot (mkTensor false [4; 2] [1; 0; 0; 1; 1; 1; 2; 2]%float)
                   (mkTensor false [1; 2; 1] [3; 4]%float) = Some out /\
    int_shape out = [2; 2; 1] /\ wf_tensor out.
Proof.
  destruct (mixed_mode_dot_unchecked_rows (F:=float)
              (mkTensor false [4; 2] [1; 0; 0; 1; 1; 1; 2; 2]%float)
              (mkTensor false [1; 2; 1] [3; 4]%float)
              4 2 1 2 1 eq_refl eq_refl ltac:(lia) ltac:(lia))
    as (_ & _ & Hok).
  apply Hok; reflexivity.
Defined.

(** X13 on a sparse filter and dense features. *)
Lemma mixed_mode_dot_sparse_iff_both_sparse_example :
  exists out,
    mixed_mode_dot (mkTensor true [2; 2] [1; 0; 0; 1]%float)
                   (mkTensor false [1; 2; 2] [1; 2; 3; 4]%float) = Some out /\
    is_sparse out = false /\ wf_tensor out.
Proof.
  exact (mixed_mode_dot_sparse_iff_both_sparse (F:=float)
           (mkTensor true [2; 2] [1; 0; 0; 1]%float)
           (mkTensor false [1; 2; 2] [1; 2; 3; 4]%float)
           1 2 2 eq_refl eq_refl ltac:(lia) ltac:(lia)).
Defined.

(** ** The normalisation over the reals and the extended reals *)

(** X16 over the reals, on [[0,1],[1,0]]. *)
Lemma normalized_adjacency_entries_real :
  exists Dh Do Ns Nr,
    degree_power (two_cycle (F:=R) false Float64) (FloatExp fneg_half)
      = Some Dh /\
    degree_power (two_cycle (F:=R) false Float64) (FloatExp fneg_one)
      = Some Do /\
    normalized_adjacency (two_cycle (F:=R) false Float64) true = Some Ns /\
    normalized_adjacency (two_cycle (F:=R) false Float64) false = Some Nr /\
    forall i j, i < 2 -> j < 2 ->
      at_ (m_rows Ns) i j =
        fmul (fmul (at_ (m_rows Dh) i i)
                   (at_ (m_rows (two_cycle false Float64)) i j))
             (at_ (m_rows Dh) j j) /\
      at_ (m_rows Nr) i j =
        fmul (at_ (m_rows Do) i i)
             (at_ (m_rows (two_cycle false Float64)) i j).
Proof.
  apply (normalized_adjacency_entries (F:=R) (two_cycle false Float64) 2);
    try (simpl; intros; ring).
  apply square_two_cycle.
Defined.

(** X18 over the reals, on [[0,1],[1,0]]. *)
Lemma normalized_adjacency_symmetric_real :
  exists S,
    normalized_adjacency (two_cycle (F:=R) false Float64) true = Some S /\
    forall i j, i < 2 -> j < 2 -> at_ (m_rows S) i j = at_ (m_rows S) j i.
Proof.
  apply (normalized_adjacency_symmetric (F:=R) (two_cycle false Float64) 2);
    try (simpl; intros; ring).
  - apply square_two_cycle.
  - intros i j Hi Hj.
    destruct i as [|[|i]], j as [|[|j]]; try lia; reflexivity.
Defined.


(** ** The filter on binary64 *)

(** X19 on an integer [[0,1],[1,0]]. *)
Lemma localpooling_filter_result_type_example :
  exists r h' fl,
    localpooling_filter 0 true [Rank2 (two_cycle (F:=float) true Int64)]
      = (Some r, h') /\
    1 <= r /\ length h' = 5 /\
    h' !! r = Some (Rank2 fl) /\
    square 2 fl /\ m_sparse fl = true /\ m_dtype fl = Float64.
Proof.
  exact (localpooling_filter_result_type (F:=float)
           [Rank2 (two_cycle true Int64)] 0 (two_cycle true Int64) true 2
           eq_refl (square_two_cycle true Int64)).
Defined.

(** X20 on a batch of one integer [[0,1],[1,0]]. *)
Lemma localpooling_filter_batch_stores_converted_example :
  exists out h',
    localpooling_filter 0 false [Rank3 Int64 2 2 [[[0; 1]; [1; 0]]]%float]
      = (Some 1, h') /\
    h' !! 1 = Some (Rank3 Int64 2 2 out) /\
    length out = 1 /\
    forall i s, [[[0; 1]; [1; 0]]]%float !! i = Some s ->
      exists At fl,
        matrix_add (slice_matrix Int64 2 s) (np_eye 2 Int64) = Some At /\
        normalized_adjacency At false = Some fl /\
        out !! i = Some (map (map fto_int) (m_rows fl)).
Proof.
  apply (localpooling_filter_batch_stores_converted (F:=float)
           [Rank3 Int64 2 2 [[[0; 1]; [1; 0]]]%float] 0 Int64 2
           [[[0; 1]; [1; 0]]]%float false eq_refl).
  repeat constructor.
Defined.

(** X21 on a dense 2x3 matrix. *)
Lemma localpooling_filter_not_square_raises_example :
  localpooling_filter 0 true
    [Rank2 {| m_sparse := false; m_dtype := Float64; m_cols := 3;
              m_rows := [[0; 1; 0]; [1; 0; 1]]%float |}]
  = (None,
     [Rank2 {| m_sparse := false; m_dtype := Float64; m_cols := 3;
               m_rows := [[0; 1; 0]; [1; 0; 1]]%float |};
      Rank2 {| m_sparse := false; m_dtype := Float64; m_cols := 3;
               m_rows := [[0; 1; 0]; [1; 0; 1]]%float |};
      Rank2 (eye false 3 Float64)]).
Proof.
  apply (localpooling_filter_not_square_raises (F:=float)
           [Rank2 {| m_sparse := false; m_dtype := Float64; m_cols := 3;
                     m_rows := [[0; 1; 0]; [1; 0; 1]]%float |}] 0
           {| m_sparse := false; m_dtype := Float64; m_cols := 3;
              m_rows := [[0; 1; 0]; [1; 0; 1]]%float |} true).
  - reflexivity.
  - unfold m_nrows; simpl; lia.
  - right. unfold m_nrows; simpl; lia.
Defined.

(** X22 on the dense row [[0,1]]. *)
Lemma localpooling_filter_broadcasts_row_example :
  exists r h' fl,
    localpooling_filter 0 false
      [Rank2 {| m_sparse := false; m_dtype := Float64; m_cols := 2;
                m_rows := [[0; 1]]%float |}] = (Some r, h') /\
    h' !! r = Some (Rank2 fl) /\ square 2 fl.
Proof.
  apply (localpooling_filter_broadcasts_row (F:=float)
           [Rank2 {| m_sparse := false; m_dtype := Float64; m_cols := 2;
                     m_rows := [[0; 1]]%float |}] 0
           {| m_sparse := false; m_dtype := Float64; m_cols := 2;
              m_rows := [[0; 1]]%float |} false 2);
    try reflexivity. lia.
Defined.
